(** * Telemarketing dashboard: the filter-and-summarise pipeline of [app_7.py]

    A shallow embedding of the non-presentation logic of the dashboard:
    [load_data], [multiselect_filter], [add_all_option], the slider bounds,
    the filter chain of [main] and the target-proportion tables, together
    with the slice of pandas they rely on.

    - A pandas [DataFrame] is its list of column names and its rows in order,
      every row carrying its index label.  A cell that is absent from a row
      is a missing value (NaN).
    - pandas never updates a frame in place here, but Python variables hold
      references: frames live in a heap and the functions of the program
      return addresses, so that [return df] is visibly the same object.
    - Exceptions are an explicit outcome; [st.error] and the tables written
      to the page are logged on a screen.
    - The memoising decorator [st.cache_data] does not change what a
      function returns and is left out, as are the widgets, the downloads
      and the plots. *)

From Stdlib Require Import ZArith QArith Sorting.Sorted Sorting.Permutation Lia.
From stdpp Require Import gmap strings list.

Close Scope Q_scope.
Open Scope Z_scope.

(** ** Values, rows and frames *)

(** A cell holds an integer (the age column) or a string (the categorical
    columns and the target). *)
Inductive Value :=
  | VInt (z : Z)
  | VStr (s : string).

#[global] Instance Value_eq_dec : EqDecision Value.
Proof. solve_decision. Defined.

(** A record maps column names to values; a column without an entry is a
    missing value. *)
Abbreviation Row := (gmap string Value).

Record DataFrame := mkDF {
  columns : list string;
  rows : list (nat * Row)
}.

(** The index labels of a frame, top to bottom. *)
Definition index (df : DataFrame) : list nat := (rows df).*1.

(** The records of a frame, top to bottom, without their labels. *)
Definition records (df : DataFrame) : list Row := (rows df).*2.

(** The labels of a [RangeIndex] of [n] rows. *)
Definition range_index (n : nat) : list nat := seq 0 n.

(** ** Exceptions and outcomes *)

(** The exceptions that occur; all of them are subclasses of Python's
    [Exception], which is what [except Exception] catches. *)
Inductive exn :=
  | KeyError (k : string)
  | AttributeError (a : string)
  | UndefinedVariableError (v : string)
  | UnboundLocalError (v : string)
  | TypeError
  | ParserError (msg : string)
  | ValueError (msg : string)
  | ReferenceError.

Inductive outcome (A : Type) :=
  | Ret (a : A)
  | Raise (e : exn).
Arguments Ret {A} a.
Arguments Raise {A} e.

Definition obind {A B} (o : outcome A) (k : A -> outcome B) : outcome B :=
  match o with
  | Ret a => k a
  | Raise e => Raise e
  end.

Fixpoint omapM {A B} (f : A -> outcome B) (l : list A) : outcome (list B) :=
  match l with
  | [] => Ret []
  | x :: l' => obind (f x) (fun y => obind (omapM f l') (fun ys => Ret (y :: ys)))
  end.

(** ** The slice of pandas used by the program *)

(** [df[col]]: the cells of a column, or [KeyError]. *)
Definition getitem (df : DataFrame) (col : string) : outcome (list (option Value)) :=
  if bool_decide (col ∈ columns df)
  then Ret ((fun lr : nat * Row => lr.2 !! col) <$> rows df)
  else Raise (KeyError col).

(** [df.col]: same cells, but attribute access raises [AttributeError]. *)
Definition getattr (df : DataFrame) (col : string) : outcome (list (option Value)) :=
  if bool_decide (col ∈ columns df)
  then Ret ((fun lr : nat * Row => lr.2 !! col) <$> rows df)
  else Raise (AttributeError col).

(** One cell of [Series.isin]: a missing value is in no list of values. *)
Definition isin_cell (values : list Value) (c : option Value) : bool :=
  match c with
  | Some v => bool_decide (v ∈ values)
  | None => false
  end.

(** [s.isin(values)] *)
Definition isin (s : list (option Value)) (values : list Value) : list bool :=
  isin_cell values <$> s.

(** Selection by a boolean mask: the entries whose flag is set, in order. *)
Fixpoint select {A} (l : list A) (mask : list bool) : list A :=
  match l, mask with
  | x :: l', b :: mask' => if b then x :: select l' mask' else select l' mask'
  | _, _ => []
  end.

(** [df[mask]]: rows keep their labels. *)
Definition boolean_index (df : DataFrame) (mask : list bool) : DataFrame :=
  mkDF (columns df) (select (rows df) mask).

(** [df.reset_index(drop=True)]: same records, labels [0 .. n-1]. *)
Definition reset_index (df : DataFrame) : DataFrame :=
  mkDF (columns df) (zip (range_index (length (rows df))) (records df)).

(** One cell of [age >= lo and age <= hi]: a missing value compares false,
    a string against an integer raises [TypeError]. *)
Definition age_between (lo hi : Z) (c : option Value) : outcome bool :=
  match c with
  | None => Ret false
  | Some (VInt a) => Ret ((lo <=? a) && (a <=? hi))
  | Some (VStr _) => Raise TypeError
  end.

(** [df.query("age >= @idades[0] and age <= @idades[1]")]: a frame with the
    rows in range, labels kept. *)
Definition query_age (df : DataFrame) (idades : Z * Z) : outcome DataFrame :=
  if bool_decide ("age" ∈ columns df)
  then obind (omapM (age_between idades.1 idades.2)
                    ((fun lr : nat * Row => lr.2 !! "age") <$> rows df))
             (fun mask => Ret (boolean_index df mask))
  else Raise (UndefinedVariableError "age").

(** ** The world: heap of frames and screen *)

Definition ref := nat.

(** A proportion table: the column name and one row per label. *)
Record Table := mkTable {
  tcolumn : string;
  entries : list (Value * Q)
}.

Inductive event :=
  | EvError (msg : string)
  | EvTable (title : string) (t : Table).

(** Besides the heap and the screen, the world holds the table-valued local
    variables of [main] that are assigned inside its [try] block: they may
    be unbound when they are read. *)
Record world := mkWorld {
  heap : list DataFrame;
  locals : gmap string Table;
  screen : list event
}.

Definition M (A : Type) : Type := world -> outcome A * world.

Definition ret {A} (a : A) : M A := fun w => (Ret a, w).

Definition bind {A B} (m : M A) (k : A -> M B) : M B :=
  fun w => match m w with
           | (Ret a, w') => k a w'
           | (Raise e, w') => (Raise e, w')
           end.

Definition lift {A} (o : outcome A) : M A := fun w => (o, w).

(** [try: body except Exception: handler] *)
Definition try_except {A} (body : M A) (handler : exn -> M A) : M A :=
  fun w => match body w with
           | (Ret a, w') => (Ret a, w')
           | (Raise e, w') => handler e w'
           end.

(** The monad structure, so that stdpp's [x ← m; k] and [m ;; k] apply. *)
#[global] Instance M_ret : MRet M := @ret.
#[global] Instance M_bind : MBind M := fun A B k m => bind m k.

(** A new frame object: it gets the next free address. *)
Definition alloc (d : DataFrame) : M ref :=
  fun w => (Ret (length (heap w)), mkWorld (heap w ++ [d]) (locals w) (screen w)).

(** The frame behind a reference. *)
Definition deref (r : ref) : M DataFrame :=
  fun w => match heap w !! r with
           | Some d => (Ret d, w)
           | None => (Raise ReferenceError, w)
           end.

(** [st.error(msg)] *)
Definition st_error (msg : string) : M unit :=
  fun w => (Ret tt, mkWorld (heap w) (locals w) (screen w ++ [EvError msg])).

(** [col.write(table)] under a heading *)
Definition st_write_table (title : string) (t : Table) : M unit :=
  fun w => (Ret tt, mkWorld (heap w) (locals w) (screen w ++ [EvTable title t])).

(** [x = t] for a table-valued local of [main] *)
Definition assign (x : string) (t : Table) : M unit :=
  fun w => (Ret tt, mkWorld (heap w) (<[x := t]> (locals w)) (screen w)).

(** Reading a local: [UnboundLocalError] when it was never assigned. *)
Definition load (x : string) : M Table :=
  fun w => match locals w !! x with
           | Some t => (Ret t, w)
           | None => (Raise (UnboundLocalError x), w)
           end.

(** ** [multiselect_filter] *)

Definition multiselect_filter (df : ref) (col : string) (selecionados : list Value) : M ref :=
  if bool_decide (VStr "all" ∈ selecionados)
  then ret df
  else d ← deref df;
       s ← lift (getitem d col);
       alloc (reset_index (boolean_index d (isin s selecionados))).

(** ** The filter chain of [main] (lines 110 to 120) *)

(** The values of the form's widgets: the age slider and the eight
    multiselects. *)
Record Selection := mkSelection {
  idades : Z * Z;
  jobs_selected : list Value;
  marital_selected : list Value;
  default_selected : list Value;
  housing_selected : list Value;
  loan_selected : list Value;
  contact_selected : list Value;
  month_selected : list Value;
  day_of_week_selected : list Value
}.

(** [bank.query("age >= @idades[0] and age <= @idades[1]")]: a new frame. *)
Definition query (bank : ref) (idades : Z * Z) : M ref :=
  d ← deref bank;
  q ← lift (query_age d idades);
  alloc q.

Definition filter_chain (bank : ref) (sel : Selection) : M ref :=
  b ← query bank (idades sel);
  b ← multiselect_filter b "job" (jobs_selected sel);
  b ← multiselect_filter b "marital" (marital_selected sel);
  b ← multiselect_filter b "default" (default_selected sel);
  b ← multiselect_filter b "housing" (housing_selected sel);
  b ← multiselect_filter b "loan" (loan_selected sel);
  b ← multiselect_filter b "contact" (contact_selected sel);
  b ← multiselect_filter b "month" (month_selected sel);
  multiselect_filter b "day_of_week" (day_of_week_selected sel).

(** The same filters in an arbitrary order: the columns with their
    selections as a list, applied left to right. *)
Fixpoint apply_filters (b : ref) (fs : list (string * list Value)) : M ref :=
  match fs with
  | [] => ret b
  | (col, selecionados) :: fs' =>
      b' ← multiselect_filter b col selecionados;
      apply_filters b' fs'
  end.

(** The eight categorical filters in the order of [main]. *)
Definition main_filters (sel : Selection) : list (string * list Value) :=
  [ ("job", jobs_selected sel);
    ("marital", marital_selected sel);
    ("default", default_selected sel);
    ("housing", housing_selected sel);
    ("loan", loan_selected sel);
    ("contact", contact_selected sel);
    ("month", month_selected sel);
    ("day_of_week", day_of_week_selected sel) ].

(** ** Target proportions (lines 136 to 166) *)

(** [Series.value_counts]: missing values are dropped, the distinct values
    are counted and ordered by falling count, ties in order of first
    appearance. *)
Definition dropna (s : list (option Value)) : list Value := omap id s.

Fixpoint unique (l : list Value) : list Value :=
  match l with
  | [] => []
  | x :: l' => x :: filter (fun y => y ≠ x) (unique l')
  end.

Definition count (v : Value) (l : list Value) : nat :=
  length (filter (fun y => y = v) l).

Fixpoint insert_desc (x : Value * nat) (l : list (Value * nat)) : list (Value * nat) :=
  match l with
  | [] => [x]
  | y :: l' => if (y.2 <=? x.2)%nat then x :: l else y :: insert_desc x l'
  end.

Definition sort_values_desc (l : list (Value * nat)) : list (Value * nat) :=
  foldr insert_desc [] l.

Definition value_counts (s : list (option Value)) : list (Value * nat) :=
  let l := dropna s in
  sort_values_desc ((fun v => (v, count v l)) <$> unique l).

(** [normalize=True]: every count divided by the sum of the counts. *)
Definition normalize (counts : list (Value * nat)) : list (Value * Q) :=
  let total := sum_list (counts.*2) in
  (fun vc : Value * nat => (vc.1, (inject_Z (Z.of_nat vc.2) / inject_Z (Z.of_nat total))%Q))
    <$> counts.

(** [.to_frame() * 100]: a one-column frame, named [proportion] by pandas 2
    (line 143 renames it), every cell times 100. *)
Definition to_frame_times_100 (props : list (Value * Q)) : Table :=
  mkTable "proportion" ((fun vp : Value * Q => (vp.1, (vp.2 * 100)%Q)) <$> props).

(** Python's [<=] on labels: integers among themselves, strings among
    themselves; a string against an integer raises [TypeError]. *)
Definition value_le (a b : Value) : outcome bool :=
  match a, b with
  | VInt x, VInt y => Ret (x <=? y)
  | VStr s, VStr t => Ret (String.leb s t)
  | _, _ => Raise TypeError
  end.

Fixpoint insert_by_label (x : Value * Q) (l : list (Value * Q)) : outcome (list (Value * Q)) :=
  match l with
  | [] => Ret [x]
  | y :: l' =>
      obind (value_le x.1 y.1) (fun b =>
        if b then Ret (x :: l)
        else obind (insert_by_label x l') (fun r => Ret (y :: r)))
  end.

Fixpoint sort_entries (l : list (Value * Q)) : outcome (list (Value * Q)) :=
  match l with
  | [] => Ret []
  | x :: l' => obind (sort_entries l') (insert_by_label x)
  end.

(** [t.sort_index()] *)
Definition sort_index (t : Table) : outcome Table :=
  obind (sort_entries (entries t)) (fun es => Ret (mkTable (tcolumn t) es)).

(** [t.columns = [name]] on a one-column table *)
Definition set_columns (t : Table) (name : string) : Table :=
  mkTable name (entries t).

(** The right-hand side of lines 136 and 141:
    [df.y.value_counts(normalize=True).to_frame() * 100]. *)
Definition target_perc (df : ref) : M Table :=
  d ← deref df;
  s ← lift (getattr d "y");
  ret (to_frame_times_100 (normalize (value_counts s))).

(** Lines 136 to 138; the assignment to [columns] of line 138 renames the
    column of the table the variable holds. *)
Definition raw_proportions (bank_raw : ref) : M unit :=
  t ← target_perc bank_raw;
  assign "bank_raw_target_perc" t;;
  t ← load "bank_raw_target_perc";
  t ← lift (sort_index t);
  assign "bank_raw_target_perc" t;;
  t ← load "bank_raw_target_perc";
  assign "bank_raw_target_perc" (set_columns t "y").

(** The body of the [try] block, lines 141 to 143 *)
Definition filtered_proportions (bank : ref) : M unit :=
  t ← target_perc bank;
  assign "bank_target_perc" t;;
  t ← load "bank_target_perc";
  t ← lift (sort_index t);
  assign "bank_target_perc" t;;
  t ← load "bank_target_perc";
  assign "bank_target_perc" (set_columns t "y").

(** Lines 140 to 145 *)
Definition try_filtered_proportions (bank : ref) : M unit :=
  try_except (filtered_proportions bank)
             (fun _ => st_error "Erro no filtro dos dados.").

(** Lines 147 to 166: both tables are read for export and written side by
    side. *)
Definition show_tables : M unit :=
  t ← load "bank_raw_target_perc";
  st_write_table "### Proporção original" t;;
  t ← load "bank_target_perc";
  st_write_table "### Proporção da tabela com filtros" t.

(** ** The options of the multiselects (lines 93 to 105) *)

(** Python's [<] on values: integers among themselves, strings among
    themselves; a string against an integer raises [TypeError]. *)
Definition value_less (a b : Value) : outcome bool :=
  match a, b with
  | VInt x, VInt y => Ret (x <? y)
  | VStr s, VStr t => Ret (String.ltb s t)
  | _, _ => Raise TypeError
  end.

(** [sorted(lst)]: a stable sort by [<]; an element goes behind the elements
    that are less than it. *)
Fixpoint insert_sorted (x : Value) (l : list Value) : outcome (list Value) :=
  match l with
  | [] => Ret [x]
  | y :: l' =>
      obind (value_less y x) (fun b =>
        if b then obind (insert_sorted x l') (fun r => Ret (y :: r))
        else Ret (x :: l))
  end.

Fixpoint sorted (lst : list Value) : outcome (list Value) :=
  match lst with
  | [] => Ret []
  | x :: l' => obind (sorted l') (insert_sorted x)
  end.

(** Lines 93 to 96 *)
Definition add_all_option (lst : list Value) : outcome (list Value) :=
  obind (sorted lst) (fun lst => Ret (lst ++ [VStr "all"])).

(** ** [load_data] and [main] *)

(** [bank_raw.copy()] *)
Definition copy (df : ref) : M ref :=
  d ← deref df;
  alloc d.

Section Loader.

(** The uploaded byte stream and the two pandas parsers, [pd.read_csv] with
    [sep=';'] and [pd.read_excel], as functions of the upload. *)
Variable file : Type.
Variable read_csv : file -> outcome DataFrame.
Variable read_excel : file -> outcome DataFrame.

Definition load_data (file_data : file) : M ref :=
  try_except (d ← lift (read_csv file_data); alloc d)
             (fun _ => d ← lift (read_excel file_data); alloc d).

(** [main] from line 72 on, for an uploaded file.  The page output of lines
    76 to 77 and 122 to 133 and the form of lines 79 to 107 belong to the
    presentation layer; the form hands over [sel]. *)
Definition main (data_file_1 : file) (sel : Selection) : M unit :=
  bank_raw ← load_data data_file_1;
  bank ← copy bank_raw;
  bank ← filter_chain bank sel;
  raw_proportions bank_raw;;
  try_filtered_proportions bank;;
  show_tables.

End Loader.

(** ** Vocabulary of the specification *)

(** The record has a value in column [col] and that value is selected. *)
Definition value_in (col : string) (V : list Value) (r : Row) : Prop :=
  exists v, r !! col = Some v /\ v ∈ V.

#[global] Instance value_in_dec col V r : Decision (value_in col V r).
Proof.
  unfold value_in. destruct (r !! col) as [v|] eqn:E.
  - destruct (decide (v ∈ V)) as [Hin|Hout].
    + left. exists v. split; [reflexivity | exact Hin].
    + right. intros (v' & Hv & Hin). apply Hout. congruence.
  - right. intros (v' & Hv & _). discriminate.
Defined.

(** The record has an integer age within the inclusive bounds. *)
Definition age_in_range (lo hi : Z) (r : Row) : Prop :=
  exists a, r !! "age" = Some (VInt a) /\ lo <= a <= hi.

#[global] Instance age_in_range_dec lo hi r : Decision (age_in_range lo hi r).
Proof.
  unfold age_in_range. destruct (r !! "age") as [[a|s]|] eqn:E.
  - destruct (decide (lo <= a <= hi)) as [Hin|Hout].
    + left. exists a. split; [reflexivity | exact Hin].
    + right. intros (a' & Ha & Hin). apply Hout. congruence.
  - right. intros (a' & Ha & _). discriminate.
  - right. intros (a' & Ha & _). discriminate.
Defined.

(** The cells of a column, top to bottom. *)
Definition column_cells (D : DataFrame) (col : string) : list (option Value) :=
  (fun r : Row => r !! col) <$> records D.

(** A cell of a numeric column: an integer or missing. *)
Definition numeric_cell (c : option Value) : bool :=
  match c with
  | Some (VStr _) => false
  | _ => true
  end.

Definition same_kind (a b : Value) : bool :=
  match a, b with
  | VInt _, VInt _ => true
  | VStr _, VStr _ => true
  | _, _ => false
  end.

(** Labels that Python can order: all integers or all strings. *)
Definition comparable (l : list Value) : Prop :=
  Forall (fun a => Forall (fun b => same_kind a b) l) l.

(** The labels of the target column that are present. *)
Definition target_labels (D : DataFrame) : list Value :=
  dropna (column_cells D "y").

Definition categorical_columns : list string :=
  ["job"; "marital"; "default"; "housing"; "loan"; "contact"; "month"; "day_of_week"].

(** The schema of the data model: the ten columns are there, ages are
    numbers and the target labels are of one kind. *)
Definition Dataset (D : DataFrame) : Prop :=
  "age" ∈ columns D /\
  Forall (fun c => numeric_cell c) (column_cells D "age") /\
  Forall (fun col => col ∈ columns D) categorical_columns /\
  "y" ∈ columns D /\
  comparable (target_labels D).

#[global] Instance Dataset_dec D : Decision (Dataset D).
Proof. unfold Dataset, comparable. apply _. Defined.

(** Strict order on labels of one kind. *)
Definition value_lt (a b : Value) : Prop :=
  match a, b with
  | VInt x, VInt y => x < y
  | VStr s, VStr t => String.ltb s t = true
  | _, _ => False
  end.

(** Sum of a list of rationals. *)
Definition Qsum (l : list Q) : Q := foldr Qplus 0%Q l.

(** One cell of the age comparison when it does not raise. *)
Definition age_ok (lo hi : Z) (c : option Value) : bool :=
  match c with
  | Some (VInt a) => (lo <=? a) && (a <=? hi)
  | _ => false
  end.

(** The three statements of lines 136 to 138, and of lines 141 to 143, for
    the variable [x]. *)
Definition proportions_into (x : string) (df : ref) : M unit :=
  t ← target_perc df;
  assign x t;;
  t ← load x;
  t ← lift (sort_index t);
  assign x t;;
  t ← load x;
  assign x (set_columns t "y").

(** The table those statements compute for a frame, as one expression. *)
Definition proportion_table (D : DataFrame) : outcome Table :=
  obind (getattr D "y") (fun s =>
  obind (sort_index (to_frame_times_100 (normalize (value_counts s)))) (fun t =>
  Ret (set_columns t "y"))).

(** The percentage of a label among the labels that are present. *)
Definition percentage (v : Value) (labels : list Value) : Q :=
  (inject_Z (Z.of_nat (count v labels)) / inject_Z (Z.of_nat (length labels)) * 100)%Q.

(** Python's [<=] holds between the labels of two entries. *)
Definition le_keys (p q : Value * Q) : Prop := value_le p.1 q.1 = Ret true.

(** A computation that never removes or replaces an object of the heap: the
    heap it leaves extends the heap it found. *)
Definition allocates_only {A} (m : M A) : Prop :=
  forall w, heap w `prefix_of` heap (m w).2.

(** Fresh labels for a list of records. *)
Definition renumber (rs : list Row) : list (nat * Row) :=
  zip (range_index (length rs)) rs.

(** The frame the age query returns for the frame [D]. *)
Definition query_frame (D : DataFrame) (idades : Z * Z) : DataFrame :=
  mkDF (columns D)
       (filter (fun lr : nat * Row => age_in_range idades.1 idades.2 lr.2) (rows D)).

(** The rows carry the labels [0 .. n-1]. *)
Definition renumbered (D : DataFrame) : Prop := rows D = renumber (records D).

(** The frame one categorical filter returns for the frame [D]. *)
Definition step_frame (D : DataFrame) (f : string * list Value) : DataFrame :=
  if bool_decide (VStr "all" ∈ f.2) then D
  else mkDF (columns D) (renumber (filter (value_in f.1 f.2) (records D))).

(** The record passes a filter: the sentinel is selected or its value is. *)
Definition passes (r : Row) (f : string * list Value) : Prop :=
  VStr "all" ∈ f.2 \/ value_in f.1 f.2 r.

(** The record survives the whole selection. *)
Definition survives (sel : Selection) (r : Row) : Prop :=
  age_in_range (idades sel).1 (idades sel).2 r /\
  Forall (passes r) (main_filters sel).

#[global] Instance survives_dec sel r : Decision (survives sel r).
Proof. unfold survives, passes. apply _. Defined.

(** Some multiselect of the selection does not contain the sentinel. *)
Definition narrows (fs : list (string * list Value)) : Prop :=
  Exists (fun f => VStr "all" ∉ f.2) fs.

(** Order on labels of one kind, equal labels included. *)
Definition value_leq (a b : Value) : Prop := a = b \/ value_lt a b.

(** The second selection allows whatever the first allows: its age range
    contains the first and each multiselect contains "all" or the first's
    choices. *)
Definition wider (sel sel' : Selection) : Prop :=
  (idades sel').1 <= (idades sel).1 /\ (idades sel).2 <= (idades sel').2 /\
  Forall2 (fun f f' : string * list Value =>
             f.1 = f'.1 /\ (VStr "all" ∈ f'.2 \/ f.2 ⊆ f'.2))
          (main_filters sel) (main_filters sel').

(** Index labels that rise strictly from top to bottom. *)
Definition rising (D : DataFrame) : Prop := StronglySorted lt (index D).

(** The record has an integer age. *)
Definition has_age (r : Row) : Prop := exists a, r !! "age" = Some (VInt a).

#[global] Instance has_age_dec r : Decision (has_age r).
Proof.
  unfold has_age. destruct (r !! "age") as [[a|s]|] eqn:E.
  - left. by exists a.
  - right. intros (a' & Ha). discriminate.
  - right. intros (a' & Ha). discriminate.
Defined.

(** A computation that writes nothing to the page. *)
Definition silent {A} (m : M A) : Prop :=
  forall w, screen (m w).2 = screen w.

(** ** The slider of the form (lines 83 to 91) *)

(** The integer ages of a column, missing cells skipped. *)
Definition present_ages (s : list (option Value)) : list Z :=
  omap (fun c => match c with Some (VInt a) => Some a | _ => None end) s.

Section Form.

(** [int(s.max())] and [int(s.min())] on a column that holds a string: the
    reductions of pandas on object columns and Python's [int] on their
    result stay abstract. *)
Variable object_max : list (option Value) -> outcome Z.
Variable object_min : list (option Value) -> outcome Z.

(** [int(s.max())]: the largest age that is present; without any, the
    maximum is NaN and [int] raises [ValueError]. *)
Definition int_max (s : list (option Value)) : outcome Z :=
  if forallb numeric_cell s then
    match present_ages s with
    | [] => Raise (ValueError "cannot convert float NaN to integer")
    | a :: l => Ret (foldl Z.max a l)
    end
  else object_max s.

(** [int(s.min())] *)
Definition int_min (s : list (option Value)) : outcome Z :=
  if forallb numeric_cell s then
    match present_ages s with
    | [] => Raise (ValueError "cannot convert float NaN to integer")
    | a :: l => Ret (foldl Z.min a l)
    end
  else object_min s.

(** Lines 83 to 84, and the default value [(min_age, max_age)] of the
    slider of lines 85 to 91. *)
Definition slider_default (bank : ref) : M (Z * Z) :=
  d ← deref bank;
  s ← lift (getattr d "age");
  max_age ← lift (int_max s);
  d ← deref bank;
  s ← lift (getattr d "age");
  min_age ← lift (int_min s);
  ret (min_age, max_age).

End Form.

(** ** Sample data: the ten-row scenario *)

Definition record (age : Z) (job y : string) : Row :=
  <["age" := VInt age]> (<["job" := VStr job]> (<["marital" := VStr "married"]>
  (<["default" := VStr "no"]> (<["housing" := VStr "yes"]> (<["loan" := VStr "no"]>
  (<["contact" := VStr "cellular"]> (<["month" := VStr "may"]>
  (<["day_of_week" := VStr "mon"]> (<["y" := VStr y]> ∅))))))))).

Definition bank_columns : list string :=
  ["age"; "job"; "marital"; "default"; "housing"; "loan"; "contact"; "month";
   "day_of_week"; "y"].

Definition scenario : DataFrame :=
  mkDF bank_columns
    (zip (range_index 10)
       [ record 25 "admin" "no"; record 25 "technician" "no";
         record 30 "admin" "yes"; record 35 "technician" "no";
         record 40 "admin" "no"; record 45 "admin" "yes";
         record 50 "technician" "no"; record 55 "admin" "no";
         record 60 "technician" "yes"; record 65 "admin" "no" ]).

(** A world whose only object is the scenario, at address 0. *)
Definition scenario_world : world := mkWorld [scenario] ∅ [].

(** The scenario without its target column. *)
Definition no_target : DataFrame :=
  mkDF (filter (fun col => col <> "y") (columns scenario))
       ((fun lr : nat * Row => (lr.1, delete "y" lr.2)) <$> rows scenario).

(** A world whose only object is that frame, at address 0. *)
Definition no_target_world : world := mkWorld [no_target] ∅ [].

(** No job selected, everything else at its default. *)
Definition empty_jobs : Selection :=
  mkSelection (25, 65) [] [VStr "all"] [VStr "all"] [VStr "all"]
              [VStr "all"] [VStr "all"] [VStr "all"] [VStr "all"].

(** The parsers of the sample runs: the upload is delimited text, not a
    workbook. *)
Definition csv_of (D : DataFrame) : unit -> outcome DataFrame := fun _ => Ret D.
Definition not_a_workbook : unit -> outcome DataFrame :=
  fun _ => Raise (ParserError "not a workbook").

(** Administrators between 30 and 50, every other multiselect at "all". *)
Definition admins_30_50 : Selection :=
  mkSelection (30, 50) [VStr "admin"] [VStr "all"] [VStr "all"] [VStr "all"]
              [VStr "all"] [VStr "all"] [VStr "all"] [VStr "all"].

(** Every multiselect left at its default, the slider at the given bounds. *)
Definition select_all (lo hi : Z) : Selection :=
  mkSelection (lo, hi) [VStr "all"] [VStr "all"] [VStr "all"] [VStr "all"]
              [VStr "all"] [VStr "all"] [VStr "all"] [VStr "all"].

Ltac by_computation :=
  match goal with
  | |- ?P => apply (@bool_decide_unpack P _); vm_compute; exact I
  end.

(** ** Facts about the pandas slice *)

Lemma select_fmap {A} (f : A -> bool) (l : list A) :
  select l (f <$> l) = filter (fun x => f x) l.
Proof.
  induction l as [|x l IH]; [done|].
  cbn [fmap list_fmap select]. rewrite filter_cons.
  destruct (f x); rewrite IH; reflexivity.
Qed.

Lemma filter_snd {A B} (P : B -> Prop) `{!forall y, Decision (P y)} (l : list (A * B)) :
  (filter (fun lr => P lr.2) l).*2 = filter P (l.*2).
Proof.
  induction l as [|[a b] l IH]; [done|].
  rewrite fmap_cons. rewrite !filter_cons. cbn [snd].
  destruct (decide (P b)); [rewrite fmap_cons|]; by rewrite IH.
Qed.

Lemma records_reset_index D : records (reset_index D) = records D.
Proof.
  unfold records, reset_index, range_index. cbn [rows].
  apply snd_zip. rewrite length_seq. unfold records. by rewrite length_fmap.
Qed.

Lemma index_reset_index D :
  index (reset_index D) = range_index (length (rows D)).
Proof.
  unfold index, reset_index, range_index. cbn [rows].
  apply fst_zip. rewrite length_seq. unfold records. by rewrite length_fmap.
Qed.

Lemma isin_cell_value_in col V (r : Row) :
  isin_cell V (r !! col) <-> value_in col V r.
Proof.
  unfold isin_cell, value_in. destruct (r !! col) as [v|].
  - rewrite bool_decide_spec. split.
    + intros Hin. exists v. split; [reflexivity | exact Hin].
    + intros (v' & Hv & Hin). congruence.
  - split; [intros [] | intros (v' & Hv & _); discriminate].
Qed.

(** What [multiselect_filter] does when the sentinel is not selected: one
    new frame, at the next address, with the rows of the mask. *)
Lemma multiselect_filter_run w df D col V :
  heap w !! df = Some D -> col ∈ columns D -> VStr "all" ∉ V ->
  multiselect_filter df col V w =
    (Ret (length (heap w)),
     mkWorld (heap w ++
                [reset_index (mkDF (columns D)
                   (filter (fun lr : nat * Row => isin_cell V (lr.2 !! col)) (rows D)))])
             (locals w) (screen w)).
Proof.
  intros Hdf Hcol Hall. unfold multiselect_filter.
  rewrite bool_decide_eq_false_2 by done.
  unfold mbind, M_bind, bind, deref, lift, getitem, alloc. rewrite Hdf.
  rewrite bool_decide_eq_true_2 by done.
  unfold isin, boolean_index. rewrite <- list_fmap_compose.
  pose proof (select_fmap (fun lr : nat * Row => isin_cell V (lr.2 !! col)) (rows D)) as E.
  unfold compose. rewrite E. done.
Qed.

Lemma lookup_alloc (h : list DataFrame) (d : DataFrame) :
  (h ++ [d]) !! length h = Some d.
Proof. rewrite lookup_app_r by lia. by rewrite Nat.sub_diag. Qed.

(** ** The categorical filter *)

(** C1. When "all" is not selected, [multiselect_filter] returns a new frame
    whose records are exactly the records of the input whose value in the
    column is a member of the selection, in the order of the input. *)
Theorem multiselect_filter_members (w : world) (df : ref) (D : DataFrame)
    (col : string) (V : list Value) :
  heap w !! df = Some D -> col ∈ columns D -> VStr "all" ∉ V ->
  exists df' D',
    multiselect_filter df col V w =
      (Ret df', mkWorld (heap w ++ [D']) (locals w) (screen w)) /\
    heap (multiselect_filter df col V w).2 !! df' = Some D' /\
    columns D' = columns D /\
    records D' = filter (value_in col V) (records D) /\
    records D' `sublist_of` records D /\
    (forall r, r ∈ records D' <-> r ∈ records D /\ value_in col V r).
Proof.
  intros Hdf Hcol Hall.
  rewrite (multiselect_filter_run w df D col V Hdf Hcol Hall).
  eexists _, _. split; [reflexivity|]. cbn [snd heap].
  assert (Hrec : records (reset_index (mkDF (columns D)
             (filter (fun lr : nat * Row => isin_cell V (lr.2 !! col)) (rows D))))
           = filter (value_in col V) (records D)).
  { rewrite records_reset_index. unfold records. cbn [rows].
    rewrite <- (filter_snd (value_in col V)).
    f_equal. apply list_filter_iff. intros [l r]. apply isin_cell_value_in. }
  split; [apply lookup_alloc|]. split; [done|]. split; [exact Hrec|].
  rewrite Hrec. split; [apply sublist_filter|].
  intros r. rewrite list_elem_of_filter. tauto.
Qed.

Lemma multiselect_filter_members_witness :
  exists df' D',
    multiselect_filter 0%nat "job" [VStr "admin"] scenario_world =
      (Ret df', mkWorld (heap scenario_world ++ [D']) (locals scenario_world)
                        (screen scenario_world)) /\
    heap (multiselect_filter 0%nat "job" [VStr "admin"] scenario_world).2 !! df' = Some D' /\
    columns D' = columns scenario /\
    records D' = filter (value_in "job" [VStr "admin"]) (records scenario) /\
    records D' `sublist_of` records scenario /\
    (forall r, r ∈ records D' <-> r ∈ records scenario /\ value_in "job" [VStr "admin"] r).
Proof.
  apply (multiselect_filter_members scenario_world 0%nat scenario "job" [VStr "admin"]).
  - reflexivity.
  - by_computation.
  - by_computation.
Defined.

(** C3. When the selection contains "all", [multiselect_filter] returns the
    very frame it was given and touches nothing: same object, hence the same
    rows in the same order, whatever the column. *)
Theorem multiselect_filter_all (w : world) (df : ref) (col : string) (S : list Value) :
  VStr "all" ∈ S ->
  multiselect_filter df col S w = (Ret df, w).
Proof.
  intros Hall. unfold multiselect_filter.
  rewrite bool_decide_eq_true_2 by done. reflexivity.
Qed.

Lemma multiselect_filter_all_witness :
  multiselect_filter 0%nat "job" [VStr "admin"; VStr "all"] scenario_world
  = (Ret 0%nat, scenario_world).
Proof.
  apply (multiselect_filter_all scenario_world 0%nat "job" [VStr "admin"; VStr "all"]).
  by_computation.
Defined.

(** C9. An empty selection on a column of the frame gives a frame with the
    same columns and zero rows, as an ordinary return value. *)
Theorem multiselect_filter_empty_selection (w : world) (df : ref) (D : DataFrame)
    (col : string) :
  heap w !! df = Some D -> col ∈ columns D ->
  multiselect_filter df col [] w =
    (Ret (length (heap w)),
     mkWorld (heap w ++ [mkDF (columns D) []]) (locals w) (screen w)).
Proof.
  intros Hdf Hcol.
  rewrite (multiselect_filter_run w df D col [] Hdf Hcol) by apply not_elem_of_nil.
  do 3 f_equal.
  assert (E : filter (fun lr : nat * Row => isin_cell [] (lr.2 !! col)) (rows D) = []).
  { induction (rows D) as [|lr l IH]; [done|].
    rewrite filter_cons_False; [exact IH|].
    rewrite isin_cell_value_in. intros (v & _ & Hin). by apply not_elem_of_nil in Hin. }
  rewrite E. reflexivity.
Qed.

Lemma multiselect_filter_empty_selection_witness :
  multiselect_filter 0%nat "month" [] scenario_world =
    (Ret 1%nat, mkWorld [scenario; mkDF bank_columns []] ∅ []).
Proof.
  apply (multiselect_filter_empty_selection scenario_world 0%nat scenario "month").
  - reflexivity.
  - by_computation.
Defined.

(** ** The age range *)

Lemma age_ok_in_range lo hi (r : Row) :
  age_ok lo hi (r !! "age") <-> age_in_range lo hi r.
Proof.
  unfold age_ok, age_in_range. destruct (r !! "age") as [[a|s]|].
  - rewrite andb_True, !Is_true_true, !Z.leb_le. split.
    + intros H. exists a. split; [reflexivity | exact H].
    + intros (a' & Ha & H). congruence.
  - split; [intros [] | intros (a' & Ha & _); discriminate].
  - split; [intros [] | intros (a' & Ha & _); discriminate].
Qed.

Lemma omapM_age_between lo hi (cells : list (option Value)) :
  Forall (fun c => numeric_cell c) cells ->
  omapM (age_between lo hi) cells = Ret (age_ok lo hi <$> cells).
Proof.
  induction 1 as [|c cells Hc _ IH]; [done|].
  cbn [omapM]. rewrite IH.
  destruct c as [[a|s]|]; [reflexivity | destruct Hc | reflexivity].
Qed.

Lemma query_run w bank D lo hi :
  heap w !! bank = Some D -> "age" ∈ columns D ->
  Forall (fun c => numeric_cell c) (column_cells D "age") ->
  query bank (lo, hi) w =
    (Ret (length (heap w)),
     mkWorld (heap w ++
                [mkDF (columns D)
                   (filter (fun lr : nat * Row => age_ok lo hi (lr.2 !! "age")) (rows D))])
             (locals w) (screen w)).
Proof.
  intros Hdf Hcol Hnum. unfold query, mbind, M_bind, bind, deref, lift, query_age, alloc.
  rewrite Hdf. rewrite bool_decide_eq_true_2 by done.
  unfold column_cells, records in Hnum. rewrite <- list_fmap_compose in Hnum.
  cbn [fst snd]. unfold compose in Hnum.
  rewrite (omapM_age_between lo hi _ Hnum). cbn [obind].
  unfold boolean_index. rewrite <- list_fmap_compose.
  pose proof (select_fmap (fun lr : nat * Row => age_ok lo hi (lr.2 !! "age")) (rows D)) as E.
  unfold compose. rewrite E. reflexivity.
Qed.

(** C2. On a frame whose age column is numeric, the range filter returns a
    new frame holding exactly the rows whose age [a] satisfies
    [lo <= a <= hi], both bounds included, with their labels and in order:
    every record of the result is in range and every record of the input
    that is in range is in the result. *)
Theorem query_age_range (w : world) (bank : ref) (D : DataFrame) (lo hi : Z) :
  heap w !! bank = Some D -> "age" ∈ columns D ->
  Forall (fun c => numeric_cell c) (column_cells D "age") ->
  exists bank' D',
    query bank (lo, hi) w =
      (Ret bank', mkWorld (heap w ++ [D']) (locals w) (screen w)) /\
    columns D' = columns D /\
    rows D' = filter (fun lr : nat * Row => age_in_range lo hi lr.2) (rows D) /\
    (forall r, r ∈ records D' -> age_in_range lo hi r) /\
    (forall r, r ∈ records D -> age_in_range lo hi r -> r ∈ records D').
Proof.
  intros Hdf Hcol Hnum. rewrite (query_run w bank D lo hi Hdf Hcol Hnum).
  eexists _, _. split; [reflexivity|]. split; [reflexivity|]. cbn [rows].
  assert (E : filter (fun lr : nat * Row => age_ok lo hi (lr.2 !! "age")) (rows D)
              = filter (fun lr : nat * Row => age_in_range lo hi lr.2) (rows D)).
  { apply list_filter_iff. intros [l r]. apply age_ok_in_range. }
  rewrite E. split; [reflexivity|].
  unfold records. cbn [rows]. rewrite (filter_snd (age_in_range lo hi)).
  split; intros r; rewrite list_elem_of_filter; tauto.
Qed.

Lemma query_age_range_witness :
  exists bank' D',
    query 0%nat (30, 50) scenario_world =
      (Ret bank', mkWorld (heap scenario_world ++ [D']) (locals scenario_world)
                          (screen scenario_world)) /\
    columns D' = columns scenario /\
    rows D' = filter (fun lr : nat * Row => age_in_range 30 50 lr.2) (rows scenario) /\
    (forall r, r ∈ records D' -> age_in_range 30 50 r) /\
    (forall r, r ∈ records scenario -> age_in_range 30 50 r -> r ∈ records D').
Proof.
  apply (query_age_range scenario_world 0%nat scenario 30 50).
  - reflexivity.
  - by_computation.
  - by_computation.
Defined.

(** ** The filter chain *)

Lemma bind_ret_r {A} (m : M A) (w : world) : bind m ret w = m w.
Proof. unfold bind, ret. destruct (m w) as [[a|e] w']; reflexivity. Qed.

Lemma bind_ext {A B} (m : M A) (k1 k2 : A -> M B) (w : world) :
  (forall a w', k1 a w' = k2 a w') -> bind m k1 w = bind m k2 w.
Proof.
  intros H. unfold bind. destruct (m w) as [[a|e] w']; [apply H | reflexivity].
Qed.

(** The chain of [main] is the age query followed by the eight filters in
    the order of [main_filters]. *)
Lemma filter_chain_apply_filters bank sel w :
  filter_chain bank sel w =
  (b ← query bank (idades sel); apply_filters b (main_filters sel)) w.
Proof.
  unfold filter_chain, main_filters, mbind, M_bind. cbn [apply_filters].
  unfold mbind, M_bind.
  do 8 (apply bind_ext; intros ? ?).
  symmetry. apply bind_ret_r.
Qed.

Lemma reset_index_renumber D :
  reset_index D = mkDF (columns D) (renumber (records D)).
Proof.
  unfold reset_index, renumber, records. by rewrite length_fmap.
Qed.

Lemma records_renumber rs : (renumber rs).*2 = rs.
Proof. unfold renumber, range_index. apply snd_zip. by rewrite length_seq. Qed.

Lemma index_renumber rs : (renumber rs).*1 = range_index (length rs).
Proof. unfold renumber, range_index. apply fst_zip. by rewrite length_seq. Qed.

Lemma filter_isin_records col V (rws : list (nat * Row)) :
  (filter (fun lr : nat * Row => isin_cell V (lr.2 !! col)) rws).*2
  = filter (value_in col V) (rws.*2).
Proof.
  rewrite <- (filter_snd (value_in col V)). f_equal.
  apply list_filter_iff. intros [l r]. apply isin_cell_value_in.
Qed.

Lemma step_frame_columns D f : columns (step_frame D f) = columns D.
Proof. unfold step_frame. by case_bool_decide. Qed.

Lemma steps_columns fs D : columns (foldl step_frame D fs) = columns D.
Proof.
  revert D. induction fs as [|f fs IH]; intros D; [done|].
  cbn [foldl]. rewrite IH. apply step_frame_columns.
Qed.

(** One filter, seen from the heap: it returns a reference to [step_frame]
    of its input and leaves every older object, the locals and the screen
    alone. *)
Lemma multiselect_filter_step w b D (f : string * list Value) :
  heap w !! b = Some D -> f.1 ∈ columns D ->
  exists b' w',
    multiselect_filter b f.1 f.2 w = (Ret b', w') /\
    heap w' !! b' = Some (step_frame D f) /\
    heap w `prefix_of` heap w' /\
    locals w' = locals w /\ screen w' = screen w.
Proof.
  intros Hb Hcol. unfold step_frame. case_bool_decide as Hall.
  - exists b, w. by rewrite multiselect_filter_all.
  - rewrite (multiselect_filter_run w b D f.1 f.2 Hb Hcol Hall).
    eexists _, _. split; [reflexivity|]. cbn [heap locals screen].
    split; [|split; [by apply prefix_app_r | done]].
    rewrite lookup_alloc. f_equal.
    rewrite reset_index_renumber. cbn [columns]. f_equal. f_equal.
    unfold records at 1. cbn [rows]. apply filter_isin_records.
Qed.

Lemma apply_filters_run fs w b D :
  heap w !! b = Some D ->
  Forall (fun f : string * list Value => f.1 ∈ columns D) fs ->
  exists b' w',
    apply_filters b fs w = (Ret b', w') /\
    heap w' !! b' = Some (foldl step_frame D fs) /\
    heap w `prefix_of` heap w' /\
    locals w' = locals w /\ screen w' = screen w.
Proof.
  revert w b D. induction fs as [|[col V] fs IH]; intros w b D Hb Hcols.
  - exists b, w. done.
  - apply Forall_cons in Hcols as [Hcol Hcols].
    destruct (multiselect_filter_step w b D (col, V) Hb Hcol)
      as (b1 & w1 & Hrun & Hb1 & Hpre & Hloc & Hscr).
    destruct (IH w1 b1 (step_frame D (col, V)) Hb1) as (b2 & w2 & Hrun2 & Hb2 & Hpre2 & Hloc2 & Hscr2).
    { eapply Forall_impl; [exact Hcols|]. intros f Hf. by rewrite step_frame_columns. }
    exists b2, w2. cbn [apply_filters foldl]. unfold mbind, M_bind, bind.
    cbn [fst snd] in Hrun. rewrite Hrun. split; [exact Hrun2|].
    split; [exact Hb2|]. split; [by etrans|]. split; congruence.
Qed.

Lemma filter_all_true {A} (P : A -> Prop) `{!forall x, Decision (P x)} (l : list A) :
  (forall x, P x) -> filter P l = l.
Proof.
  intros HP. induction l as [|x l IH]; [done|].
  rewrite filter_cons_True by apply HP. by rewrite IH.
Qed.

Lemma step_frame_records D f :
  records (step_frame D f) = filter (fun r => passes r f) (records D).
Proof.
  unfold step_frame, passes. case_bool_decide as Hall.
  - symmetry. apply filter_all_true. intros r. by left.
  - unfold records at 1. cbn [rows]. rewrite records_renumber.
    apply list_filter_iff. intros r. tauto.
Qed.

(** The records that are left after a list of filters: those that pass
    every one, in the order of the input. *)
Lemma steps_records fs D :
  records (foldl step_frame D fs)
  = filter (fun r => Forall (passes r) fs) (records D).
Proof.
  revert D. induction fs as [|f fs IH]; intros D.
  - cbn [foldl]. symmetry. apply filter_all_true. intros r. constructor.
  - cbn [foldl]. rewrite IH, step_frame_records, list_filter_filter.
    apply list_filter_iff. intros r. rewrite Forall_cons. tauto.
Qed.

Lemma step_frame_renumbered D f :
  renumbered D \/ VStr "all" ∉ f.2 -> renumbered (step_frame D f).
Proof.
  unfold step_frame, renumbered. case_bool_decide as Hall.
  - intros [H|H]; [exact H | contradiction].
  - intros _. unfold records. cbn [rows]. by rewrite records_renumber.
Qed.

Lemma steps_renumbered fs D :
  renumbered D \/ narrows fs -> renumbered (foldl step_frame D fs).
Proof.
  revert D. induction fs as [|f fs IH]; intros D [H|H].
  - exact H.
  - by apply Exists_nil in H.
  - cbn [foldl]. apply IH. left. apply step_frame_renumbered. by left.
  - cbn [foldl]. apply Exists_cons in H as [H|H].
    + apply IH. left. apply step_frame_renumbered. by right.
    + apply IH. by right.
Qed.

Lemma renumbered_index D :
  renumbered D -> index D = range_index (length (rows D)).
Proof.
  unfold renumbered, index. intros H. rewrite H at 1.
  rewrite index_renumber. unfold records. by rewrite length_fmap.
Qed.

(** When every multiselect contains the sentinel the filters return the
    frame untouched. *)
Lemma steps_all fs D : ~ narrows fs -> foldl step_frame D fs = D.
Proof.
  unfold narrows. induction fs as [|f fs IH]; intros H; [done|].
  rewrite Exists_cons in H. cbn [foldl]. unfold step_frame at 2.
  rewrite bool_decide_eq_true_2.
  - apply IH. tauto.
  - destruct (decide (VStr "all" ∈ f.2)); [done | tauto].
Qed.

Lemma main_filters_columns D sel :
  Forall (fun col => col ∈ columns D) categorical_columns ->
  Forall (fun f : string * list Value => f.1 ∈ columns D) (main_filters sel).
Proof.
  unfold categorical_columns, main_filters.
  rewrite !Forall_cons, !Forall_nil. cbn [fst]. tauto.
Qed.

(** The age query followed by any list of filters on columns of the frame:
    the run succeeds, allocates only, and its result is the fold of
    [step_frame] over the queried frame. *)
Lemma chain_run fs w bank D idades :
  heap w !! bank = Some D -> "age" ∈ columns D ->
  Forall (fun c => numeric_cell c) (column_cells D "age") ->
  Forall (fun f : string * list Value => f.1 ∈ columns D) fs ->
  exists b' w',
    (b ← query bank idades; apply_filters b fs) w = (Ret b', w') /\
    heap w' !! b' = Some (foldl step_frame (query_frame D idades) fs) /\
    heap w `prefix_of` heap w' /\
    locals w' = locals w /\ screen w' = screen w.
Proof.
  intros Hb Hage Hnum Hcols. destruct idades as [lo hi].
  unfold mbind, M_bind, bind. rewrite (query_run w bank D lo hi Hb Hage Hnum).
  set (Q := mkDF (columns D) _). set (w0 := mkWorld _ _ _).
  assert (HQ : Q = query_frame D (lo, hi)).
  { unfold Q, query_frame. f_equal. apply list_filter_iff.
    intros [l r]. apply age_ok_in_range. }
  destruct (apply_filters_run fs w0 (length (heap w)) Q) as (b' & w' & Hrun & Hb' & Hpre & Hloc & Hscr).
  { unfold w0. cbn [heap]. apply lookup_alloc. }
  { exact Hcols. }
  exists b', w'. split; [exact Hrun|]. rewrite <- HQ. split; [exact Hb'|].
  split; [|done]. etrans; [|exact Hpre]. unfold w0. cbn [heap]. by apply prefix_app_r.
Qed.

Lemma query_frame_records D idades :
  records (query_frame D idades)
  = filter (age_in_range idades.1 idades.2) (records D).
Proof.
  unfold query_frame, records. cbn [rows].
  apply (filter_snd (age_in_range idades.1 idades.2)).
Qed.

(** C5 (amended). On a Dataset the filter chain of [main] returns a frame
    whose records are the surviving records of the input in their relative
    order; whenever at least one of the eight selections does not contain
    "all", its index is renumbered contiguously from zero. *)
Theorem filter_chain_order_and_index (w : world) (bank : ref) (D : DataFrame)
    (sel : Selection) :
  heap w !! bank = Some D -> Dataset D ->
  exists bank' w' F,
    filter_chain bank sel w = (Ret bank', w') /\
    heap w' !! bank' = Some F /\
    records F = filter (survives sel) (records D) /\
    records F `sublist_of` records D /\
    (narrows (main_filters sel) -> index F = range_index (length (rows F))).
Proof.
  intros Hb (Hage & Hnum & Hcat & _ & _).
  destruct (chain_run (main_filters sel) w bank D (idades sel) Hb Hage Hnum)
    as (b' & w' & Hrun & Hb' & _).
  { by apply main_filters_columns. }
  exists b', w', (foldl step_frame (query_frame D (idades sel)) (main_filters sel)).
  rewrite filter_chain_apply_filters. split; [exact Hrun|]. split; [exact Hb'|].
  assert (Hrec : records (foldl step_frame (query_frame D (idades sel)) (main_filters sel))
                 = filter (survives sel) (records D)).
  { rewrite steps_records, query_frame_records, list_filter_filter.
    apply list_filter_iff. intros r. unfold survives. tauto. }
  split; [exact Hrec|]. split; [rewrite Hrec; apply sublist_filter|].
  intros Hn. apply renumbered_index, steps_renumbered. by right.
Qed.

Lemma filter_chain_order_and_index_witness :
  exists bank' w' F,
    filter_chain 0%nat admins_30_50 scenario_world = (Ret bank', w') /\
    heap w' !! bank' = Some F /\
    records F = filter (survives admins_30_50) (records scenario) /\
    records F `sublist_of` records scenario /\
    (narrows (main_filters admins_30_50) -> index F = range_index (length (rows F))).
Proof.
  apply (filter_chain_order_and_index scenario_world 0%nat scenario).
  - reflexivity.
  - by_computation.
Defined.

(** The scenario of the specification: ages 30 to 50 and job "admin" leave
    the administrators aged 30, 40 and 45, renumbered from zero. *)
Example scenario_admins_30_50 :
  exists bank' w' F,
    filter_chain 0%nat admins_30_50 scenario_world = (Ret bank', w') /\
    heap w' !! bank' = Some F /\
    index F = [0; 1; 2]%nat /\
    (fun r : Row => r !! "age") <$> records F
      = [Some (VInt 30); Some (VInt 40); Some (VInt 45)].
Proof.
  destruct (chain_run (main_filters admins_30_50) scenario_world 0%nat scenario
              (idades admins_30_50)) as (b' & w' & Hrun & Hb' & _).
  { reflexivity. }
  { by_computation. }
  { by_computation. }
  { by_computation. }
  exists b', w', (foldl step_frame (query_frame scenario (idades admins_30_50))
                        (main_filters admins_30_50)).
  rewrite filter_chain_apply_filters. split; [exact Hrun|]. split; [exact Hb'|].
  split; vm_compute; reflexivity.
Qed.

(** C5, as stated, fails: with every multiselect left at "all" and the
    slider at 30 to 50, the five surviving rows of the scenario keep the
    labels 2 to 6 they had in the input. *)
Lemma filter_chain_index_counterexample :
  Dataset scenario /\
  exists bank' w' F,
    filter_chain 0%nat (select_all 30 50) scenario_world = (Ret bank', w') /\
    heap w' !! bank' = Some F /\
    index F = [2; 3; 4; 5; 6]%nat /\
    index F <> range_index (length (rows F)).
Proof.
  split; [by_computation|].
  destruct (chain_run (main_filters (select_all 30 50)) scenario_world 0%nat scenario
              (idades (select_all 30 50))) as (b' & w' & Hrun & Hb' & _).
  { reflexivity. }
  { by_computation. }
  { by_computation. }
  { by_computation. }
  exists b', w', (foldl step_frame (query_frame scenario (idades (select_all 30 50)))
                        (main_filters (select_all 30 50))).
  rewrite filter_chain_apply_filters. split; [exact Hrun|]. split; [exact Hb'|].
  split; vm_compute; [reflexivity | discriminate].
Qed.

(** When every multiselect contains "all", the chain returns the rows of the
    age range with the labels they had in the input. *)
Lemma filter_chain_all_keeps_labels w bank D sel :
  heap w !! bank = Some D -> Dataset D -> ~ narrows (main_filters sel) ->
  exists bank' w',
    filter_chain bank sel w = (Ret bank', w') /\
    heap w' !! bank' = Some (query_frame D (idades sel)).
Proof.
  intros Hb (Hage & Hnum & Hcat & _ & _) Hall.
  destruct (chain_run (main_filters sel) w bank D (idades sel) Hb Hage Hnum)
    as (b' & w' & Hrun & Hb' & _).
  { by apply main_filters_columns. }
  exists b', w'. rewrite filter_chain_apply_filters. split; [exact Hrun|].
  by rewrite steps_all in Hb'.
Qed.

(** Two categorical filters commute, labels included. *)
Lemma step_frame_comm D f g :
  step_frame (step_frame D f) g = step_frame (step_frame D g) f.
Proof.
  unfold step_frame. repeat case_bool_decide; try reflexivity.
  cbn [columns]. unfold records at 1 3. cbn [rows]. rewrite !records_renumber.
  rewrite !list_filter_filter. do 2 f_equal.
  apply list_filter_iff. intros r. tauto.
Qed.

Lemma steps_permutation fs fs' D :
  fs ≡ₚ fs' -> foldl step_frame D fs = foldl step_frame D fs'.
Proof.
  intros Hp. revert D. induction Hp as [|f fs fs' _ IH|f g fs|fs1 fs2 fs3 _ IH1 _ IH2]; intros D.
  - reflexivity.
  - cbn [foldl]. apply IH.
  - cbn [foldl]. by rewrite step_frame_comm.
  - by rewrite IH1.
Qed.

(** C8. On a Dataset, the age query followed by the eight categorical
    filters in any order of the columns returns the same frame, labels
    included, as the chain of [main] with its fixed order. *)
Theorem filters_any_order (w : world) (bank : ref) (D : DataFrame) (sel : Selection)
    (fs : list (string * list Value)) :
  heap w !! bank = Some D -> Dataset D -> fs ≡ₚ main_filters sel ->
  exists b1 w1 b2 w2 F,
    filter_chain bank sel w = (Ret b1, w1) /\
    heap w1 !! b1 = Some F /\
    (b ← query bank (idades sel); apply_filters b fs) w = (Ret b2, w2) /\
    heap w2 !! b2 = Some F.
Proof.
  intros Hb (Hage & Hnum & Hcat & _ & _) Hp.
  pose proof (main_filters_columns D sel Hcat) as Hcols.
  destruct (chain_run (main_filters sel) w bank D (idades sel) Hb Hage Hnum Hcols)
    as (b1 & w1 & Hrun1 & Hb1 & _).
  destruct (chain_run fs w bank D (idades sel) Hb Hage Hnum)
    as (b2 & w2 & Hrun2 & Hb2 & _).
  { by rewrite Hp. }
  exists b1, w1, b2, w2, (foldl step_frame (query_frame D (idades sel)) (main_filters sel)).
  rewrite filter_chain_apply_filters. split; [exact Hrun1|]. split; [exact Hb1|].
  split; [exact Hrun2|]. by rewrite <- (steps_permutation fs (main_filters sel)).
Qed.

Lemma filters_any_order_witness :
  exists b1 w1 b2 w2 F,
    filter_chain 0%nat admins_30_50 scenario_world = (Ret b1, w1) /\
    heap w1 !! b1 = Some F /\
    (b ← query 0%nat (idades admins_30_50);
     apply_filters b (reverse (main_filters admins_30_50))) scenario_world = (Ret b2, w2) /\
    heap w2 !! b2 = Some F.
Proof.
  apply (filters_any_order scenario_world 0%nat scenario admins_30_50
           (reverse (main_filters admins_30_50))).
  - reflexivity.
  - by_computation.
  - apply reverse_Permutation.
Defined.


(** ** Counting the target values *)

Lemma elem_of_unique l v : v ∈ unique l <-> v ∈ l.
Proof.
  induction l as [|x l IH]; [done|].
  cbn [unique]. rewrite !elem_of_cons, list_elem_of_filter, IH.
  destruct (decide (v = x)); tauto.
Qed.

Lemma NoDup_unique l : NoDup (unique l).
Proof.
  induction l as [|x l IH]; [constructor|].
  cbn [unique]. constructor.
  - rewrite list_elem_of_filter. tauto.
  - by apply NoDup_filter.
Qed.

Lemma count_cons v x l :
  count v (x :: l) = ((if decide (x = v) then 1 else 0) + count v l)%nat.
Proof. unfold count. rewrite filter_cons. by case_decide. Qed.

Lemma count_le_length v l : (count v l <= length l)%nat.
Proof. apply length_filter. Qed.

Lemma sum_indicator (us : list Value) x :
  NoDup us -> x ∈ us ->
  sum_list ((fun v => if decide (x = v) then 1 else 0)%nat <$> us) = 1%nat.
Proof.
  induction 1 as [|u us Hu Hnd IH]; [by intros ?%not_elem_of_nil|].
  rewrite elem_of_cons. cbn [fmap list_fmap sum_list_with id]. intros Hx.
  destruct (decide (x = u)) as [->|Hne].
  - f_equal. clear IH Hx Hnd. induction us as [|u' us IH]; [done|].
    apply not_elem_of_cons in Hu as [Hne Hu]. cbn [fmap list_fmap sum_list_with id].
    rewrite decide_False by done. by apply IH.
  - destruct Hx as [?|Hx]; [done|]. by apply IH.
Qed.

Lemma sum_list_plus {A} (f g : A -> nat) (l : list A) :
  sum_list ((fun a => f a + g a)%nat <$> l)
  = (sum_list (f <$> l) + sum_list (g <$> l))%nat.
Proof. induction l as [|a l IH]; [done|]. cbn [fmap list_fmap sum_list_with id]. lia. Qed.

(** The counts of the distinct values add up to the number of values. *)
Lemma sum_counts (us l : list Value) :
  NoDup us -> (forall v, v ∈ l -> v ∈ us) ->
  sum_list ((fun v => count v l) <$> us) = length l.
Proof.
  intros Hnd. induction l as [|x l IH]; intros Hsub.
  - clear Hnd Hsub. induction us as [|u us IHus]; [done | simpl; exact IHus].
  - rewrite (list_fmap_ext (fun v => count v (x :: l))
               (fun v => (if decide (x = v) then 1 else 0) + count v l)%nat us)
      by (intros; apply count_cons).
    rewrite sum_list_plus, sum_indicator; [|done|apply Hsub; left].
    rewrite IH; [done|]. intros v Hv. apply Hsub. by right.
Qed.

Lemma insert_desc_perm x l : insert_desc x l ≡ₚ x :: l.
Proof.
  induction l as [|y l IH]; [done|].
  cbn [insert_desc]. destruct (y.2 <=? x.2)%nat; [done|].
  rewrite IH. apply perm_swap.
Qed.

Lemma sort_values_desc_perm l : sort_values_desc l ≡ₚ l.
Proof.
  unfold sort_values_desc. induction l as [|x l IH]; [done|].
  cbn [foldr]. by rewrite insert_desc_perm, IH.
Qed.

Lemma sum_list_perm (l l' : list nat) : l ≡ₚ l' -> sum_list l = sum_list l'.
Proof. induction 1; cbn [sum_list_with id]; lia. Qed.

(** [value_counts] lists every label that is present once, with its count. *)
Lemma value_counts_perm s :
  value_counts s ≡ₚ (fun v => (v, count v (dropna s))) <$> unique (dropna s).
Proof. unfold value_counts. apply sort_values_desc_perm. Qed.

Lemma value_counts_total s :
  sum_list (value_counts s).*2 = length (dropna s).
Proof.
  rewrite (sum_list_perm _ _ (fmap_Permutation snd _ _ (value_counts_perm s))).
  rewrite <- list_fmap_compose.
  apply (sum_counts (unique (dropna s)) (dropna s)); [apply NoDup_unique|].
  intros v. by rewrite elem_of_unique.
Qed.

(** ** Sorting the table by label *)

Lemma value_le_total a b :
  same_kind a b ->
  value_le a b = Ret true \/ (value_le a b = Ret false /\ value_le b a = Ret true).
Proof.
  destruct a as [x|s], b as [y|t]; cbn [same_kind value_le]; intros Hk.
  - destruct (Z.leb_spec x y) as [H|H]; [by left | right].
    split; [done|]. f_equal. apply Z.leb_le. lia.
  - destruct Hk.
  - destruct Hk.
  - destruct (String.leb s t) eqn:E; [by left | right].
    split; [done|]. f_equal.
    destruct (String.leb_total s t) as [H|H]; [congruence | exact H].
Qed.

Lemma value_le_lt a b : value_le a b = Ret true -> a <> b -> value_lt a b.
Proof.
  destruct a as [x|s], b as [y|t]; cbn [value_le value_lt]; try discriminate.
  - intros [= H%Z.leb_le] Hne. assert (x <> y) by congruence. lia.
  - intros [= H] Hne. unfold String.leb in H. unfold String.ltb.
    destruct (String.compare s t) eqn:E; [|done|done].
    apply String.compare_eq_iff in E. congruence.
Qed.

Lemma insert_by_label_sorted x l :
  Forall (fun q : Value * Q => same_kind x.1 q.1) l -> Sorted le_keys l ->
  exists l',
    insert_by_label x l = Ret l' /\ l' ≡ₚ x :: l /\ Sorted le_keys l' /\
    (forall y, le_keys y x -> HdRel le_keys y l -> HdRel le_keys y l').
Proof.
  induction l as [|y0 l IH]; intros Hkind Hsorted.
  - exists [x]. split; [reflexivity|]. split; [reflexivity|].
    split; [by apply Sorted_cons|].
    intros y Hy _. by apply HdRel_cons.
  - apply Forall_cons in Hkind as [Hk Hkind].
    apply Sorted_inv in Hsorted as [Hsorted Hhd].
    cbn [insert_by_label].
    destruct (value_le_total x.1 y0.1 Hk) as [Hle|[Hnle Hge]].
    + rewrite Hle. cbn [obind]. exists (x :: y0 :: l).
      split; [reflexivity|]. split; [reflexivity|].
      split; [apply Sorted_cons; [by apply Sorted_cons | by apply HdRel_cons]|].
      intros y Hy _. by apply HdRel_cons.
    + rewrite Hnle. cbn [obind].
      destruct (IH Hkind Hsorted) as (l' & Hrun & Hperm & Hs & Hhead).
      rewrite Hrun. cbn [obind]. exists (y0 :: l').
      split; [done|]. split; [by rewrite Hperm; apply perm_swap|].
      split; [apply Sorted_cons; [exact Hs | by apply Hhead]|].
      intros y _ Hy. apply HdRel_inv in Hy. by apply HdRel_cons.
Qed.

(** Labels of one kind are sorted without an exception: the result is a
    rearrangement of the entries with the labels in rising order. *)
Lemma sort_entries_sorted l :
  (forall p q : Value * Q, p ∈ l -> q ∈ l -> same_kind p.1 q.1) ->
  exists l', sort_entries l = Ret l' /\ l' ≡ₚ l /\ Sorted le_keys l'.
Proof.
  induction l as [|x l IH]; intros Hkind.
  - exists []. split; [reflexivity|]. split; [reflexivity | apply Sorted_nil].
  - destruct IH as (l1 & Hrun & Hperm & Hsorted).
    { intros p q Hp Hq. apply Hkind; by right. }
    destruct (insert_by_label_sorted x l1) as (l' & Hrun' & Hperm' & Hsorted' & _).
    { apply Forall_forall. intros q Hq. apply Hkind; [by left|].
      right. by rewrite <- Hperm. }
    { exact Hsorted. }
    exists l'. cbn [sort_entries]. rewrite Hrun. cbn [obind].
    split; [exact Hrun'|]. split; [by rewrite Hperm', Hperm | exact Hsorted'].
Qed.

Lemma sorted_keys_strict l :
  Sorted le_keys l -> NoDup l.*1 -> Sorted value_lt l.*1.
Proof.
  induction 1 as [|a l Hs IH Hhd]; intros Hnd; [constructor|].
  rewrite fmap_cons in Hnd. apply NoDup_cons in Hnd as [Hnotin Hnd].
  rewrite fmap_cons. constructor; [by apply IH|].
  destruct Hhd as [|b l Hab]; [constructor|].
  rewrite fmap_cons. constructor. apply value_le_lt; [exact Hab|].
  intros Heq. apply Hnotin. rewrite Heq, fmap_cons. by left.
Qed.

(** ** Percentages *)

Lemma Qsum_perm (l l' : list Q) : l ≡ₚ l' -> (Qsum l == Qsum l')%Q.
Proof.
  induction 1 as [|x l l' _ IH|x y l|l1 l2 l3 _ IH1 _ IH2]; unfold Qsum in *; cbn [foldr].
  - reflexivity.
  - by rewrite IH.
  - ring.
  - by rewrite IH1.
Qed.

Lemma Qsum_scaled (n : Q) (cs : list nat) :
  (Qsum ((fun c => inject_Z (Z.of_nat c) / n * 100) <$> cs)
   == inject_Z (Z.of_nat (sum_list cs)) / n * 100)%Q.
Proof.
  induction cs as [|c cs IH]; unfold Qsum in *; cbn [fmap list_fmap foldr sum_list_with id].
  - unfold Qdiv. ring.
  - rewrite IH, Nat2Z.inj_add, inject_Z_plus. unfold Qdiv. ring.
Qed.

Lemma percentage_bounds (c n : nat) :
  (c <= n)%nat -> (0 < n)%nat ->
  (0 <= inject_Z (Z.of_nat c) / inject_Z (Z.of_nat n) * 100 <= 100)%Q.
Proof.
  intros Hcn Hn.
  assert (Hpos : (0 < inject_Z (Z.of_nat n))%Q).
  { change 0%Q with (inject_Z 0). rewrite <- Zlt_Qlt. lia. }
  assert (H0 : (0 <= inject_Z (Z.of_nat c))%Q).
  { change 0%Q with (inject_Z 0). rewrite <- Zle_Qle. lia. }
  assert (H1 : (inject_Z (Z.of_nat c) <= inject_Z (Z.of_nat n))%Q).
  { rewrite <- Zle_Qle. lia. }
  assert (H100 : (0 <= 100)%Q) by (unfold Qle; simpl; lia).
  split.
  - apply Qmult_le_0_compat; [|exact H100].
    apply Qle_shift_div_l; [exact Hpos|]. by rewrite Qmult_0_l.
  - assert (H2 : (inject_Z (Z.of_nat c) / inject_Z (Z.of_nat n) <= 1)%Q).
    { apply Qle_shift_div_r; [exact Hpos|]. by rewrite Qmult_1_l. }
    pose proof (Qmult_le_compat_r _ _ 100%Q H2 H100) as H3.
    by rewrite Qmult_1_l in H3.
Qed.

Lemma percentage_total (n : nat) :
  (0 < n)%nat -> (inject_Z (Z.of_nat n) / inject_Z (Z.of_nat n) * 100 == 100)%Q.
Proof.
  intros Hn. unfold Qdiv. rewrite Qmult_inv_r; [ring|].
  change 0%Q with (inject_Z 0). rewrite inject_Z_injective. lia.
Qed.

(** ** The proportion tables *)

(** A run of the three statements, case by case. *)
Lemma proportions_into_run x df w :
  proportions_into x df w =
  match heap w !! df with
  | None => (Raise ReferenceError, w)
  | Some D =>
      match getattr D "y" with
      | Raise e => (Raise e, w)
      | Ret s =>
          let t1 := to_frame_times_100 (normalize (value_counts s)) in
          match sort_index t1 with
          | Raise e => (Raise e, mkWorld (heap w) (<[x := t1]> (locals w)) (screen w))
          | Ret t2 =>
              (Ret tt, mkWorld (heap w) (<[x := set_columns t2 "y"]> (locals w)) (screen w))
          end
      end
  end.
Proof.
  unfold proportions_into, target_perc, mbind, M_bind, bind, deref, lift, ret, assign, load.
  destruct (heap w !! df) as [D|]; [|reflexivity].
  destruct (getattr D "y") as [s|e]; [|reflexivity].
  cbn [heap locals screen]. rewrite lookup_insert_eq.
  destruct (sort_index _) as [t2|e]; [|reflexivity].
  cbn [heap locals screen]. rewrite lookup_insert_eq.
  cbn [heap locals screen]. rewrite !insert_insert_eq. reflexivity.
Qed.

Lemma raw_proportions_into bank_raw :
  raw_proportions bank_raw = proportions_into "bank_raw_target_perc" bank_raw.
Proof. reflexivity. Qed.

Lemma filtered_proportions_into bank :
  filtered_proportions bank = proportions_into "bank_target_perc" bank.
Proof. reflexivity. Qed.

Lemma proportions_into_ok x df w D t :
  heap w !! df = Some D -> proportion_table D = Ret t ->
  proportions_into x df w =
    (Ret tt, mkWorld (heap w) (<[x := t]> (locals w)) (screen w)).
Proof.
  intros Hdf Ht. rewrite proportions_into_run, Hdf. unfold proportion_table in Ht.
  destruct (getattr D "y") as [s|e]; [|discriminate]. cbn [obind] in Ht. cbv zeta.
  destruct (sort_index _) as [t2|e]; [|discriminate]. cbn [obind] in Ht. congruence.
Qed.

Lemma getattr_target D :
  "y" ∈ columns D -> getattr D "y" = Ret (column_cells D "y").
Proof.
  intros Hy. unfold getattr, column_cells, records.
  rewrite bool_decide_eq_true_2 by done. by rewrite <- list_fmap_compose.
Qed.

(** The table before sorting: one entry per distinct label with its
    percentage, in some order. *)
Lemma unsorted_entries_perm s :
  entries (to_frame_times_100 (normalize (value_counts s)))
  ≡ₚ (fun v => (v, percentage v (dropna s))) <$> unique (dropna s).
Proof.
  unfold to_frame_times_100, normalize. cbn [entries].
  rewrite value_counts_total, <- list_fmap_compose.
  rewrite (value_counts_perm s), <- list_fmap_compose. reflexivity.
Qed.

Lemma percentages_sum (l : list Value) :
  l <> [] ->
  (Qsum ((fun v => percentage v l) <$> unique l) == 100)%Q.
Proof.
  intros Hl.
  pose proof (Qsum_scaled (inject_Z (Z.of_nat (length l)))
                ((fun v => count v l) <$> unique l)) as H.
  rewrite <- list_fmap_compose in H. unfold compose in H.
  unfold percentage. rewrite H, sum_counts.
  - apply percentage_total. destruct l; [done | cbn [length]; lia].
  - apply NoDup_unique.
  - intros v. by rewrite elem_of_unique.
Qed.

(** What the summariser computes for a frame whose target labels are of one
    kind. *)
Lemma proportion_table_spec D :
  "y" ∈ columns D -> comparable (target_labels D) ->
  exists t,
    proportion_table D = Ret t /\
    tcolumn t = "y" /\
    (entries t).*1 ≡ₚ unique (target_labels D) /\
    entries t ≡ₚ (fun v => (v, percentage v (target_labels D))) <$> unique (target_labels D) /\
    Sorted value_lt (entries t).*1.
Proof.
  intros Hy Hcmp. unfold proportion_table. rewrite (getattr_target D Hy). cbn [obind].
  fold (target_labels D). unfold target_labels at 1.
  pose proof (unsorted_entries_perm (column_cells D "y")) as Hperm.
  fold (target_labels D) in Hperm.
  set (t1 := to_frame_times_100 _) in *.
  assert (Hkeys : (entries t1).*1 ≡ₚ unique (target_labels D)).
  { rewrite Hperm, <- list_fmap_compose. unfold compose. cbn [fst]. by rewrite list_fmap_id. }
  destruct (sort_entries_sorted (entries t1)) as (es & Hrun & Hes & Hsorted).
  { intros p q Hp Hq. unfold comparable in Hcmp. rewrite Forall_forall in Hcmp.
    assert (Hin : forall r : Value * Q, r ∈ entries t1 -> r.1 ∈ target_labels D).
    { intros r Hr. apply elem_of_unique. rewrite <- Hkeys. by apply list_elem_of_fmap_2. }
    pose proof (Hcmp p.1 (Hin p Hp)) as Hrow. rewrite Forall_forall in Hrow.
    apply Hrow, Hin, Hq. }
  unfold sort_index. rewrite Hrun. cbn [obind].
  eexists. split; [reflexivity|]. cbn [set_columns tcolumn entries].
  split; [reflexivity|]. split; [by rewrite Hes|]. split; [by rewrite Hes|].
  apply sorted_keys_strict; [exact Hsorted|].
  rewrite Hes, Hkeys. apply NoDup_unique.
Qed.

(** C4. For a frame with a target column that has at least one value, the
    labels being of one kind, both summaries (lines 136 to 138 and 141 to
    143) succeed and store a table with exactly one entry per distinct
    target value; every entry is the percentage of its label, lies between 0
    and 100, the labels rise strictly, and the percentages sum to 100.
    Percentages are exact rationals here; the floating-point rounding of
    pandas is outside the model. *)
Theorem proportion_table_properties (w : world) (df : ref) (D : DataFrame) :
  heap w !! df = Some D -> "y" ∈ columns D ->
  target_labels D <> [] -> comparable (target_labels D) ->
  exists t,
    raw_proportions df w =
      (Ret tt, mkWorld (heap w) (<["bank_raw_target_perc" := t]> (locals w)) (screen w)) /\
    filtered_proportions df w =
      (Ret tt, mkWorld (heap w) (<["bank_target_perc" := t]> (locals w)) (screen w)) /\
    NoDup (entries t).*1 /\
    (forall v, v ∈ (entries t).*1 <-> v ∈ target_labels D) /\
    (forall v p, (v, p) ∈ entries t -> p = percentage v (target_labels D)) /\
    Forall (fun p => (0 <= p <= 100)%Q) (entries t).*2 /\
    Sorted value_lt (entries t).*1 /\
    (Qsum (entries t).*2 == 100)%Q.
Proof.
  intros Hdf Hy Hne Hcmp.
  destruct (proportion_table_spec D Hy Hcmp) as (t & Ht & _ & Hkeys & Hent & Hsorted).
  exists t.
  split; [rewrite raw_proportions_into; by apply (proportions_into_ok _ _ _ D)|].
  split; [rewrite filtered_proportions_into; by apply (proportions_into_ok _ _ _ D)|].
  split; [rewrite Hkeys; apply NoDup_unique|].
  split; [intros v; by rewrite Hkeys, elem_of_unique|].
  split.
  { intros v p Hvp. rewrite Hent in Hvp.
    apply list_elem_of_fmap in Hvp as (v' & [= -> ->] & _). reflexivity. }
  split.
  { rewrite Hent, <- list_fmap_compose. apply Forall_fmap, Forall_forall.
    intros v _. cbn [compose snd]. unfold percentage.
    apply percentage_bounds; [apply count_le_length|].
    destruct (target_labels D); [done | cbn [length]; lia]. }
  split; [exact Hsorted|].
  rewrite (Qsum_perm _ _ (fmap_Permutation snd _ _ Hent)), <- list_fmap_compose.
  by apply percentages_sum.
Qed.

Lemma proportion_table_properties_witness :
  exists t,
    raw_proportions 0%nat scenario_world =
      (Ret tt, mkWorld (heap scenario_world)
                       (<["bank_raw_target_perc" := t]> (locals scenario_world))
                       (screen scenario_world)) /\
    filtered_proportions 0%nat scenario_world =
      (Ret tt, mkWorld (heap scenario_world)
                       (<["bank_target_perc" := t]> (locals scenario_world))
                       (screen scenario_world)) /\
    NoDup (entries t).*1 /\
    (forall v, v ∈ (entries t).*1 <-> v ∈ target_labels scenario) /\
    (forall v p, (v, p) ∈ entries t -> p = percentage v (target_labels scenario)) /\
    Forall (fun p => (0 <= p <= 100)%Q) (entries t).*2 /\
    Sorted value_lt (entries t).*1 /\
    (Qsum (entries t).*2 == 100)%Q.
Proof.
  apply (proportion_table_properties scenario_world 0%nat scenario).
  - reflexivity.
  - by_computation.
  - by_computation.
  - by_computation.
Defined.

(** The scenario of the specification: three "yes" and seven "no" give the
    table no 70, yes 30, "no" first. *)
Example scenario_proportions :
  proportion_table scenario
  = Ret (mkTable "y" [(VStr "no", (700 # 10)%Q); (VStr "yes", (300 # 10)%Q)]).
Proof. vm_compute. reflexivity. Qed.

(** ** The loader *)

(** C6. [load_data] tries the delimited-text parser first and returns its
    frame when it succeeds; when that parser raises, whatever the error, it
    tries the spreadsheet parser; when both raise, the error of the
    spreadsheet parser reaches the caller, and no error arises otherwise. *)
Theorem load_data_fallback (file : Type) (read_csv read_excel : file -> outcome DataFrame)
    (file_data : file) (w : world) :
  (forall d, read_csv file_data = Ret d ->
     load_data file read_csv read_excel file_data w
     = (Ret (length (heap w)), mkWorld (heap w ++ [d]) (locals w) (screen w))) /\
  (forall e d, read_csv file_data = Raise e -> read_excel file_data = Ret d ->
     load_data file read_csv read_excel file_data w
     = (Ret (length (heap w)), mkWorld (heap w ++ [d]) (locals w) (screen w))) /\
  (forall e e', read_csv file_data = Raise e -> read_excel file_data = Raise e' ->
     load_data file read_csv read_excel file_data w = (Raise e', w)) /\
  (forall e' w', load_data file read_csv read_excel file_data w = (Raise e', w') ->
     (exists e, read_csv file_data = Raise e) /\ read_excel file_data = Raise e' /\ w' = w).
Proof.
  unfold load_data, try_except, mbind, M_bind, bind, lift, alloc.
  repeat split.
  - intros d ->. reflexivity.
  - intros e d -> ->. reflexivity.
  - intros e e' -> ->. reflexivity.
  - destruct (read_csv file_data) as [d|e]; [discriminate | by exists e].
  - destruct (read_csv file_data) as [d|e]; [discriminate|].
    destruct (read_excel file_data) as [d|e0]; [discriminate | congruence].
  - destruct (read_csv file_data) as [d|e]; [discriminate|].
    destruct (read_excel file_data) as [d|e0]; [discriminate | congruence].
Qed.

(** ** The heap only grows *)

Lemma ao_ret {A} (a : A) : allocates_only (ret a).
Proof. intros w. done. Qed.

Lemma ao_lift {A} (o : outcome A) : allocates_only (lift o).
Proof. intros w. done. Qed.

Lemma ao_deref r : allocates_only (deref r).
Proof. intros w. unfold deref. by destruct (heap w !! r). Qed.

Lemma ao_alloc d : allocates_only (alloc d).
Proof. intros w. cbn. by apply prefix_app_r. Qed.

Lemma ao_assign x t : allocates_only (assign x t).
Proof. intros w. done. Qed.

Lemma ao_load x : allocates_only (load x).
Proof. intros w. unfold load. by destruct (locals w !! x). Qed.

Lemma ao_st_error msg : allocates_only (st_error msg).
Proof. intros w. done. Qed.

Lemma ao_st_write_table title t : allocates_only (st_write_table title t).
Proof. intros w. done. Qed.

Lemma ao_bind {A B} (m : M A) (k : A -> M B) :
  allocates_only m -> (forall a, allocates_only (k a)) -> allocates_only (m ≫= k).
Proof.
  intros Hm Hk w. unfold mbind, M_bind, bind. specialize (Hm w).
  destruct (m w) as [[a|e] w1]; [|exact Hm].
  etrans; [exact Hm | apply Hk].
Qed.

Lemma ao_try_except {A} (body : M A) (handler : exn -> M A) :
  allocates_only body -> (forall e, allocates_only (handler e)) ->
  allocates_only (try_except body handler).
Proof.
  intros Hb Hh w. unfold try_except. specialize (Hb w).
  destruct (body w) as [[a|e] w1]; [exact Hb|].
  etrans; [exact Hb | apply Hh].
Qed.

Create HintDb heap_frame.
#[local] Hint Resolve ao_ret ao_lift ao_deref ao_alloc ao_assign ao_load
  ao_st_error ao_st_write_table : heap_frame.

Ltac heap_frame :=
  repeat first
    [ apply ao_bind; [|intros ?]
    | apply ao_try_except; [|intros ?]
    | solve [auto with heap_frame] ].

Lemma ao_multiselect_filter df col selecionados :
  allocates_only (multiselect_filter df col selecionados).
Proof. unfold multiselect_filter. case_bool_decide; heap_frame. Qed.

Lemma ao_query bank idades : allocates_only (query bank idades).
Proof. unfold query. heap_frame. Qed.

Lemma ao_copy df : allocates_only (copy df).
Proof. unfold copy. heap_frame. Qed.

#[local] Hint Resolve ao_multiselect_filter ao_query ao_copy : heap_frame.

Lemma ao_filter_chain bank sel : allocates_only (filter_chain bank sel).
Proof. unfold filter_chain. heap_frame. Qed.

Lemma ao_proportions_into x df : allocates_only (proportions_into x df).
Proof. unfold proportions_into, target_perc. heap_frame. Qed.

Lemma ao_show_tables : allocates_only show_tables.
Proof. unfold show_tables. heap_frame. Qed.

Lemma ao_try_filtered_proportions bank :
  allocates_only (try_filtered_proportions bank).
Proof.
  unfold try_filtered_proportions. rewrite filtered_proportions_into.
  apply ao_try_except; [apply ao_proportions_into | intros e; apply ao_st_error].
Qed.

(** Everything [main] does once the raw frame is loaded. *)
Lemma ao_after_load bank_raw sel :
  allocates_only
    (bank ← copy bank_raw;
     bank ← filter_chain bank sel;
     raw_proportions bank_raw;;
     try_filtered_proportions bank;;
     show_tables).
Proof.
  apply ao_bind; [apply ao_copy | intros b].
  apply ao_bind; [apply ao_filter_chain | intros b'].
  apply ao_bind; [rewrite raw_proportions_into; apply ao_proportions_into | intros _].
  apply ao_bind; [apply ao_try_filtered_proportions | intros _].
  apply ao_show_tables.
Qed.

(** ** The raw frame is never touched *)

Lemma bind_Ret_inv {A B} (m : M A) (k : A -> M B) w b w' :
  (m ≫= k) w = (Ret b, w') ->
  exists a w0, m w = (Ret a, w0) /\ k a w0 = (Ret b, w').
Proof.
  unfold mbind, M_bind, bind. destruct (m w) as [[a|e] w0]; [|discriminate].
  intros H. by exists a, w0.
Qed.

Lemma copy_run df w :
  copy df w = match heap w !! df with
              | Some d => (Ret (length (heap w)), mkWorld (heap w ++ [d]) (locals w) (screen w))
              | None => (Raise ReferenceError, w)
              end.
Proof.
  unfold copy, mbind, M_bind, bind, deref, alloc. by destruct (heap w !! df).
Qed.

Lemma query_ref bank idades w b' w' :
  query bank idades w = (Ret b', w') -> b' = length (heap w).
Proof.
  unfold query, mbind, M_bind, bind, deref, lift, alloc.
  destruct (heap w !! bank) as [d|]; [|discriminate].
  destruct (query_age d idades) as [q|e]; [|discriminate]. congruence.
Qed.

Lemma multiselect_filter_ref df col V w b' w' :
  multiselect_filter df col V w = (Ret b', w') -> b' = df \/ b' = length (heap w).
Proof.
  unfold multiselect_filter. case_bool_decide.
  - unfold ret. intros [= <- _]. by left.
  - unfold mbind, M_bind, bind, deref, lift, alloc.
    destruct (heap w !! df) as [d|]; [|discriminate].
    destruct (getitem d col) as [s|e]; [|discriminate]. intros [= <- _]. by right.
Qed.

(** References returned by the filters are the one passed in or a fresh
    one: they never fall below a bound that the input respects. *)
Lemma apply_filters_ref fs (n : nat) b w b' w' :
  (n <= b)%nat -> (n <= length (heap w))%nat ->
  apply_filters b fs w = (Ret b', w') -> (n <= b')%nat.
Proof.
  revert b w. induction fs as [|[col V] fs IH]; intros b w Hb Hw.
  - unfold apply_filters, ret. intros [= <- _]. exact Hb.
  - cbn [apply_filters]. intros (b1 & w1 & H1 & H2)%bind_Ret_inv.
    pose proof (ao_multiselect_filter b col V w) as Hpre.
    rewrite H1 in Hpre. apply prefix_length in Hpre. cbn [snd] in Hpre.
    apply (IH b1 w1); [|lia|exact H2].
    destruct (multiselect_filter_ref _ _ _ _ _ _ H1) as [->| ->]; lia.
Qed.

Lemma filter_chain_ref bank sel w b' w' :
  filter_chain bank sel w = (Ret b', w') -> (length (heap w) <= b')%nat.
Proof.
  rewrite filter_chain_apply_filters. intros (b0 & w0 & H0 & H1)%bind_Ret_inv.
  pose proof (ao_query bank (idades sel) w) as Hpre.
  rewrite H0 in Hpre. apply prefix_length in Hpre. cbn [snd] in Hpre.
  apply (apply_filters_ref (main_filters sel) _ b0 w0 b' w'); [|exact Hpre|exact H1].
  by rewrite (query_ref _ _ _ _ _ H0).
Qed.

Lemma locals_proportions_into x df w y :
  y <> x -> locals (proportions_into x df w).2 !! y = locals w !! y.
Proof.
  intros Hy. rewrite proportions_into_run.
  destruct (heap w !! df) as [D|]; [|done].
  destruct (getattr D "y") as [s|e]; [|done]. cbv zeta.
  destruct (sort_index _) as [t|e]; cbn [snd locals]; by rewrite lookup_insert_ne.
Qed.

Lemma locals_try_filtered_proportions bank w y :
  y <> "bank_target_perc" ->
  locals (try_filtered_proportions bank w).2 !! y = locals w !! y.
Proof.
  intros Hy. unfold try_filtered_proportions, try_except.
  pose proof (locals_proportions_into "bank_target_perc" bank w y Hy) as H.
  rewrite <- filtered_proportions_into in H.
  by destruct (filtered_proportions bank w) as [[[]|e] w1].
Qed.

Lemma locals_show_tables w : locals (show_tables w).2 = locals w.
Proof.
  unfold show_tables, mbind, M_bind, bind, load, st_write_table.
  destruct (locals w !! "bank_raw_target_perc"); [|done]. cbn [locals].
  by destruct (locals w !! "bank_target_perc").
Qed.

Lemma load_data_inv (file : Type) (read_csv read_excel : file -> outcome DataFrame)
    (file_data : file) (w w1 : world) (r : ref) :
  load_data file read_csv read_excel file_data w = (Ret r, w1) ->
  exists D,
    (read_csv file_data = Ret D \/ read_excel file_data = Ret D) /\
    heap w1 !! r = Some D.
Proof.
  unfold load_data, try_except, mbind, M_bind, bind, lift, alloc.
  destruct (read_csv file_data) as [d|e].
  - intros [= <- <-]. exists d. split; [by left | apply lookup_alloc].
  - destruct (read_excel file_data) as [d|e']; [|discriminate].
    intros [= <- <-]. exists d. split; [by right | apply lookup_alloc].
Qed.

(** C10. Once [load_data] has returned the raw frame, nothing in [main]
    changes it: the filters work on other objects (the copy and what is
    derived from it), the frame behind [bank_raw] is the frame of the parser
    after the filter chain and at the end of [main], whatever the selection
    and however [main] ends, and the raw proportion table is the table of
    that frame. *)
Theorem main_keeps_raw_dataset (file : Type)
    (read_csv read_excel : file -> outcome DataFrame)
    (data_file_1 : file) (sel : Selection) (w w1 : world) (bank_raw : ref) :
  load_data file read_csv read_excel data_file_1 w = (Ret bank_raw, w1) ->
  exists D,
    (read_csv data_file_1 = Ret D \/ read_excel data_file_1 = Ret D) /\
    heap w1 !! bank_raw = Some D /\
    (forall bank w2,
       (b ← copy bank_raw; filter_chain b sel) w1 = (Ret bank, w2) ->
       bank <> bank_raw /\ heap w2 !! bank_raw = Some D) /\
    heap (main file read_csv read_excel data_file_1 sel w).2 !! bank_raw = Some D /\
    (forall w3,
       main file read_csv read_excel data_file_1 sel w = (Ret tt, w3) ->
       exists t, proportion_table D = Ret t /\
                 locals w3 !! "bank_raw_target_perc" = Some t).
Proof.
  intros Hload. destruct (load_data_inv _ _ _ _ _ _ _ Hload) as (D & Hparse & HD).
  exists D. split; [exact Hparse|]. split; [exact HD|].
  assert (Hmain : main file read_csv read_excel data_file_1 sel w
                  = (bank ← copy bank_raw;
                     bank ← filter_chain bank sel;
                     raw_proportions bank_raw;;
                     try_filtered_proportions bank;;
                     show_tables) w1).
  { unfold main. unfold mbind at 1, M_bind at 1, bind at 1. by rewrite Hload. }
  split; [|split].
  - intros bank w2 (b & wa & Hcopy & Hchain)%bind_Ret_inv. split.
    + pose proof (filter_chain_ref _ _ _ _ _ Hchain) as Hge.
      pose proof (ao_copy bank_raw w1) as Hpre. rewrite Hcopy in Hpre.
      apply prefix_length in Hpre. cbn [snd] in Hpre.
      apply lookup_lt_Some in HD. lia.
    + pose proof (ao_copy bank_raw w1) as H1. rewrite Hcopy in H1.
      pose proof (ao_filter_chain b sel wa) as H2. rewrite Hchain in H2.
      cbn [snd] in H1, H2.
      eapply prefix_lookup_Some; [exact HD | by etrans].
  - rewrite Hmain. eapply prefix_lookup_Some; [exact HD | apply ao_after_load].
  - intros w3. rewrite Hmain.
    intros (b & wa & Hcopy & (b' & wb & Hchain & ([] & wc & Hraw & ([] & wd & Htry & Hshow)%bind_Ret_inv)%bind_Ret_inv)%bind_Ret_inv)%bind_Ret_inv.
    assert (HDb : heap wb !! bank_raw = Some D).
    { pose proof (ao_copy bank_raw w1) as H1. rewrite Hcopy in H1.
      pose proof (ao_filter_chain b sel wa) as H2. rewrite Hchain in H2.
      cbn [snd] in H1, H2.
      eapply prefix_lookup_Some; [exact HD | by etrans]. }
    rewrite raw_proportions_into, proportions_into_run, HDb in Hraw.
    unfold proportion_table.
    destruct (getattr D "y") as [s|e]; [|discriminate]. cbv zeta in Hraw. cbn [obind].
    destruct (sort_index _) as [t2|e]; [|discriminate]. cbn [obind].
    exists (set_columns t2 "y"). split; [reflexivity|].
    pose proof (locals_show_tables wd) as Hl1. rewrite Hshow in Hl1. cbn [snd] in Hl1.
    pose proof (locals_try_filtered_proportions b' wc "bank_raw_target_perc") as Hl2.
    rewrite Htry in Hl2. cbn [snd] in Hl2.
    rewrite Hl1, Hl2 by done.
    injection Hraw as <-. cbn [locals]. apply lookup_insert_eq.
Qed.

(** The parsers of the sample runs: the upload is the scenario as delimited
    text. *)
Lemma main_keeps_raw_dataset_witness :
  exists D,
    (Ret scenario = Ret D \/ Raise (ParserError "not a workbook") = Ret D) /\
    heap (mkWorld [scenario] ∅ []) !! 0%nat = Some D /\
    (forall bank w2,
       (b ← copy 0%nat; filter_chain b admins_30_50) (mkWorld [scenario] ∅ [])
         = (Ret bank, w2) ->
       bank <> 0%nat /\ heap w2 !! 0%nat = Some D) /\
    heap (main unit (fun _ => Ret scenario) (fun _ => Raise (ParserError "not a workbook"))
               tt admins_30_50 (mkWorld [] ∅ [])).2 !! 0%nat = Some D /\
    (forall w3,
       main unit (fun _ => Ret scenario) (fun _ => Raise (ParserError "not a workbook"))
            tt admins_30_50 (mkWorld [] ∅ []) = (Ret tt, w3) ->
       exists t, proportion_table D = Ret t /\
                 locals w3 !! "bank_raw_target_perc" = Some t).
Proof.
  apply (main_keeps_raw_dataset unit (fun _ => Ret scenario)
           (fun _ => Raise (ParserError "not a workbook")) tt admins_30_50
           (mkWorld [] ∅ []) (mkWorld [scenario] ∅ []) 0%nat).
  reflexivity.
Defined.

(** ** Failures of the label sort *)

Lemma insert_by_label_TypeError x l e :
  insert_by_label x l = Raise e -> e = TypeError.
Proof.
  induction l as [|y l IH]; [discriminate|]. cbn [insert_by_label].
  destruct x.1 as [a|s], y.1 as [b|t]; cbn [value_le obind];
    try (intros [= <-]; reflexivity).
  - destruct (a <=? b); [discriminate|].
    destruct (insert_by_label x l) as [r|e0]; [discriminate|].
    cbn [obind]. intros [= <-]. by apply IH.
  - destruct (String.leb s t); [discriminate|].
    destruct (insert_by_label x l) as [r|e0]; [discriminate|].
    cbn [obind]. intros [= <-]. by apply IH.
Qed.

Lemma sort_entries_TypeError l e : sort_entries l = Raise e -> e = TypeError.
Proof.
  revert e. induction l as [|x l IH]; intros e; [discriminate|]. cbn [sort_entries].
  destruct (sort_entries l) as [l1|e0]; cbn [obind].
  - apply insert_by_label_TypeError.
  - intros [= <-]. by apply IH.
Qed.

Lemma target_labels_nil D : rows D = [] -> target_labels D = [].
Proof. unfold target_labels, column_cells, records. by intros ->. Qed.

(** Labels that mix a number and a string: line 141 has bound the table when
    the sort of line 142 raises. *)
Example mixed_labels_fail :
  let D := mkDF ["y"] (renumber [ {["y" := VInt 1]}; {["y" := VStr "yes"]} ]) in
  filtered_proportions 0%nat (mkWorld [D] ∅ [])
  = (Raise TypeError,
     mkWorld [D]
       {["bank_target_perc" :=
           mkTable "proportion" [(VInt 1, (100 # 2)%Q); (VStr "yes", (100 # 2)%Q)]]}
       []).
Proof. vm_compute. reflexivity. Qed.

(** ** Why the handler cannot run inside [main]

    The filtered frame has the columns of the raw frame and a part of its
    records, and the raw table is computed first: whenever lines 136 to 138
    succeed, so do lines 141 to 143. *)

Lemma select_sublist {A} (l : list A) (mask : list bool) :
  select l mask `sublist_of` l.
Proof.
  revert mask. induction l as [|x l IH]; intros [|b mask]; cbn [select];
    try apply sublist_nil_l.
  destruct b; [apply sublist_skip | apply sublist_cons]; apply IH.
Qed.

Lemma query_inv bank idades w b' w' D :
  heap w !! bank = Some D -> query bank idades w = (Ret b', w') ->
  exists Q, heap w' !! b' = Some Q /\ columns Q = columns D /\
            records Q `sublist_of` records D.
Proof.
  intros HD. unfold query, mbind, M_bind, bind, deref, lift, alloc, query_age.
  rewrite HD. case_bool_decide; [|discriminate].
  destruct (omapM _ _) as [mask|e]; [|discriminate]. cbn [obind].
  intros [= <- <-]. eexists. cbn [heap]. split; [apply lookup_alloc|].
  split; [reflexivity|]. unfold records, boolean_index. cbn [rows].
  apply fmap_sublist, select_sublist.
Qed.

Lemma multiselect_filter_inv df col V w b' w' D :
  heap w !! df = Some D -> multiselect_filter df col V w = (Ret b', w') ->
  exists F, heap w' !! b' = Some F /\ columns F = columns D /\
            records F `sublist_of` records D.
Proof.
  intros HD. unfold multiselect_filter. case_bool_decide.
  - unfold ret. intros [= <- <-]. by exists D.
  - unfold mbind, M_bind, bind, deref, lift, alloc. rewrite HD.
    destruct (getitem D col) as [s|e]; [|discriminate].
    intros [= <- <-]. eexists. cbn [heap]. split; [apply lookup_alloc|].
    split; [reflexivity|]. rewrite records_reset_index.
    unfold records, boolean_index. cbn [rows].
    apply fmap_sublist, select_sublist.
Qed.

Lemma apply_filters_inv fs b w b' w' D :
  heap w !! b = Some D -> apply_filters b fs w = (Ret b', w') ->
  exists F, heap w' !! b' = Some F /\ columns F = columns D /\
            records F `sublist_of` records D.
Proof.
  revert b w D. induction fs as [|[col V] fs IH]; intros b w D HD.
  - unfold apply_filters, ret. intros [= <- <-]. by exists D.
  - cbn [apply_filters]. intros (b1 & w1 & H1 & H2)%bind_Ret_inv.
    destruct (multiselect_filter_inv _ _ _ _ _ _ _ HD H1) as (F1 & HF1 & Hc1 & Hr1).
    destruct (IH _ _ _ HF1 H2) as (F & HF & Hc & Hr).
    exists F. split; [exact HF|]. split; [congruence | by etrans].
Qed.

Lemma filter_chain_inv bank sel w b' w' D :
  heap w !! bank = Some D -> filter_chain bank sel w = (Ret b', w') ->
  exists F, heap w' !! b' = Some F /\ columns F = columns D /\
            records F `sublist_of` records D.
Proof.
  intros HD. rewrite filter_chain_apply_filters.
  intros (b0 & w0 & H0 & H1)%bind_Ret_inv.
  destruct (query_inv _ _ _ _ _ _ HD H0) as (Q & HQ & Hc0 & Hr0).
  destruct (apply_filters_inv _ _ _ _ _ _ HQ H1) as (F & HF & Hc & Hr).
  exists F. split; [exact HF|]. split; [congruence | by etrans].
Qed.

Lemma insert_by_label_perm x l l' :
  insert_by_label x l = Ret l' -> l' ≡ₚ x :: l.
Proof.
  revert l'. induction l as [|y l IH]; intros l'.
  - intros [= <-]. reflexivity.
  - cbn [insert_by_label]. destruct (value_le x.1 y.1) as [[|]|e]; cbn [obind].
    + intros [= <-]. reflexivity.
    + destruct (insert_by_label x l) as [r|e]; [|discriminate]. cbn [obind].
      intros [= <-]. rewrite (IH r eq_refl). apply perm_swap.
    + discriminate.
Qed.

Lemma sort_entries_perm l l' : sort_entries l = Ret l' -> l' ≡ₚ l.
Proof.
  revert l'. induction l as [|x l IH]; intros l'.
  - intros [= <-]. reflexivity.
  - cbn [sort_entries]. destruct (sort_entries l) as [l1|e]; [|discriminate].
    cbn [obind]. intros H%insert_by_label_perm. by rewrite H, (IH l1 eq_refl).
Qed.

Lemma same_kind_sym a b : same_kind a b -> same_kind b a.
Proof. by destruct a, b. Qed.

Lemma same_kind_trans a b c : same_kind a b -> same_kind b c -> same_kind a c.
Proof. by destruct a, b, c. Qed.

Lemma value_le_same_kind a b r : value_le a b = Ret r -> same_kind a b.
Proof. by destruct a, b. Qed.

(** An insertion that succeeds into a list of one kind compared the new
    label with the head: it is of that kind too. *)
Lemma insert_by_label_kind x l l' :
  insert_by_label x l = Ret l' ->
  (forall p q : Value * Q, p ∈ l -> q ∈ l -> same_kind p.1 q.1) ->
  forall q : Value * Q, q ∈ l -> same_kind x.1 q.1.
Proof.
  destruct l as [|y l]; [by intros _ _ q ?%not_elem_of_nil|].
  cbn [insert_by_label]. intros Hrun Hkind q Hq.
  destruct (value_le x.1 y.1) as [r|e] eqn:Hle; [|discriminate].
  apply (same_kind_trans _ y.1); [by apply (value_le_same_kind _ _ r)|].
  apply Hkind; [by left | exact Hq].
Qed.

(** Sorting succeeds only on labels of one kind. *)
Lemma sort_entries_kind l l' :
  sort_entries l = Ret l' ->
  forall p q : Value * Q, p ∈ l -> q ∈ l -> same_kind p.1 q.1.
Proof.
  revert l'. induction l as [|x l IH]; intros l'; [by intros _ p q ?%not_elem_of_nil|].
  cbn [sort_entries]. destruct (sort_entries l) as [l1|e] eqn:Hs; [|discriminate].
  cbn [obind]. intros Hins.
  pose proof (IH l1 eq_refl) as Hl.
  pose proof (sort_entries_perm l l1 Hs) as Hperm.
  assert (Hx : forall q : Value * Q, q ∈ l -> same_kind x.1 q.1).
  { intros q Hq. apply (insert_by_label_kind x l1 l' Hins).
    - intros p1 q1 Hp1 Hq1. apply Hl; by rewrite <- Hperm.
    - by rewrite Hperm. }
  intros p q [->|Hp]%elem_of_cons [->|Hq]%elem_of_cons.
  - by destruct x.1.
  - by apply Hx.
  - by apply same_kind_sym, Hx.
  - by apply Hl.
Qed.

Lemma proportion_table_inv D t :
  proportion_table D = Ret t ->
  "y" ∈ columns D /\ comparable (target_labels D).
Proof.
  unfold proportion_table, getattr. case_bool_decide as Hy; [|discriminate].
  cbn [obind]. intros Ht. split; [exact Hy|].
  pose proof (getattr_target D Hy) as Hcells. unfold getattr in Hcells.
  rewrite bool_decide_eq_true_2 in Hcells by done. injection Hcells as Hcells.
  rewrite Hcells in Ht. unfold sort_index in Ht.
  destruct (sort_entries _) as [es|e] eqn:Hs; [|discriminate].
  pose proof (sort_entries_kind _ _ Hs) as Hkind.
  pose proof (unsorted_entries_perm (column_cells D "y")) as Hperm.
  fold (target_labels D) in Hperm.
  assert (Hin : forall v, v ∈ target_labels D ->
            (v, percentage v (target_labels D))
              ∈ entries (to_frame_times_100 (normalize (value_counts (column_cells D "y"))))).
  { intros v Hv. rewrite Hperm.
    apply (list_elem_of_fmap_2 (fun v => (v, percentage v (target_labels D)))).
    by apply elem_of_unique. }
  unfold comparable. apply Forall_forall. intros a Ha. apply Forall_forall. intros b Hb.
  apply (Hkind _ _ (Hin a Ha) (Hin b Hb)).
Qed.

Lemma comparable_subseteq (l1 l2 : list Value) :
  l1 ⊆ l2 -> comparable l2 -> comparable l1.
Proof.
  unfold comparable. rewrite !Forall_forall. intros Hsub H a Ha.
  apply Forall_forall. intros b Hb.
  pose proof (H a (Hsub a Ha)) as Hrow. rewrite Forall_forall in Hrow.
  apply Hrow, Hsub, Hb.
Qed.

Lemma target_labels_subseteq F D :
  records F ⊆ records D -> target_labels F ⊆ target_labels D.
Proof.
  intros Hsub v. unfold target_labels, dropna, column_cells.
  rewrite !list_elem_of_omap. intros (c & Hc & Hv).
  apply list_elem_of_fmap in Hc as (r & -> & Hr).
  exists (r !! "y"). split; [|exact Hv].
  apply list_elem_of_fmap_2. by apply Hsub.
Qed.

(** Inside [main] the [try] block cannot fail: its frame comes from the raw
    frame through the copy and the filter chain, and the raw table has been
    computed before. *)
Lemma handler_unreachable bank_raw bank sel w0 wb wc D :
  heap w0 !! bank_raw = Some D ->
  (b ← copy bank_raw; filter_chain b sel) w0 = (Ret bank, wb) ->
  raw_proportions bank_raw wb = (Ret tt, wc) ->
  exists wd, filtered_proportions bank wc = (Ret tt, wd) /\ screen wd = screen wb.
Proof.
  intros HD (b & wa & Hcopy & Hchain)%bind_Ret_inv Hraw.
  rewrite copy_run, HD in Hcopy. injection Hcopy as <- <-.
  destruct (filter_chain_inv (length (heap w0)) sel
              (mkWorld (heap w0 ++ [D]) (locals w0) (screen w0)) bank wb D
              (lookup_alloc _ _) Hchain) as (F & HF & Hc & Hr).
  assert (HDb : heap wb !! bank_raw = Some D).
  { pose proof (ao_filter_chain (length (heap w0)) sel
                  (mkWorld (heap w0 ++ [D]) (locals w0) (screen w0))) as Hpre.
    rewrite Hchain in Hpre. cbn [snd heap] in Hpre.
    eapply prefix_lookup_Some; [exact HD|]. etrans; [|exact Hpre]. by apply prefix_app_r. }
  rewrite raw_proportions_into, proportions_into_run, HDb in Hraw.
  destruct (proportion_table D) as [t|e] eqn:Ht.
  - apply proportion_table_inv in Ht as [Hy Hcmp].
    destruct (proportion_table_spec F) as (tF & HtF & _).
    { by rewrite Hc. }
    { eapply comparable_subseteq; [|exact Hcmp].
      by apply target_labels_subseteq, sublist_subseteq. }
    assert (HFc : heap wc !! bank = Some F).
    { destruct (getattr D "y") as [s|e]; [|discriminate]. cbv zeta in Hraw.
      destruct (sort_index _) as [t2|e]; [|discriminate].
      injection Hraw as <-. exact HF. }
    eexists. rewrite filtered_proportions_into.
    rewrite (proportions_into_ok _ _ _ F tF HFc HtF). split; [reflexivity|].
    cbn [screen]. destruct (getattr D "y") as [s|e]; [|discriminate]. cbv zeta in Hraw.
    destruct (sort_index _) as [t2|e]; [|discriminate]. by injection Hraw as <-.
  - exfalso. unfold proportion_table in Ht.
    destruct (getattr D "y") as [s|e0]; [|discriminate]. cbv zeta in Hraw.
    cbn [obind] in Ht. destruct (sort_index _) as [t2|e0]; discriminate.
Qed.

(** ** The options of the multiselects *)

Lemma value_less_total a b :
  same_kind a b ->
  (value_less a b = Ret true /\ value_lt a b) \/
  (value_less a b = Ret false /\ value_leq b a).
Proof.
  destruct a as [x|s], b as [y|t]; cbn [same_kind value_less]; intros Hk.
  - destruct (Z.ltb_spec x y) as [H|H]; [left; by split | right].
    split; [done|]. unfold value_leq. cbn [value_lt].
    destruct (decide (y = x)) as [->|Hne]; [by left | right; lia].
  - destruct Hk.
  - destruct Hk.
  - unfold value_leq. cbn [value_lt]. unfold String.ltb.
    destruct (String.compare s t) eqn:E.
    + right. split; [done|]. left. f_equal. symmetry. by apply String.compare_eq_iff.
    + left. by split.
    + right. split; [done|]. right.
      rewrite String.compare_antisym, E. reflexivity.
Qed.


Lemma insert_sorted_sorted x l :
  Forall (fun y => same_kind y x) l -> Sorted value_leq l ->
  exists l',
    insert_sorted x l = Ret l' /\ l' ≡ₚ x :: l /\ Sorted value_leq l' /\
    (forall y, value_leq y x -> HdRel value_leq y l -> HdRel value_leq y l').
Proof.
  induction l as [|y0 l IH]; intros Hkind Hsorted.
  - exists [x]. split; [reflexivity|]. split; [reflexivity|].
    split; [by apply Sorted_cons|].
    intros y Hy _. by apply HdRel_cons.
  - apply Forall_cons in Hkind as [Hk Hkind].
    apply Sorted_inv in Hsorted as [Hsorted Hhd].
    cbn [insert_sorted].
    destruct (value_less_total y0 x Hk) as [[Hlt Hlt']|[Hnlt Hle]].
    + rewrite Hlt. cbn [obind].
      destruct (IH Hkind Hsorted) as (l' & Hrun & Hperm & Hs & Hhead).
      rewrite Hrun. cbn [obind]. exists (y0 :: l').
      split; [done|]. split; [by rewrite Hperm; apply perm_swap|].
      split; [apply Sorted_cons; [exact Hs | apply Hhead; [by right | exact Hhd]]|].
      intros y _ Hy. apply HdRel_inv in Hy. by apply HdRel_cons.
    + rewrite Hnlt. cbn [obind]. exists (x :: y0 :: l).
      split; [reflexivity|]. split; [reflexivity|].
      split; [apply Sorted_cons; [by apply Sorted_cons | by apply HdRel_cons]|].
      intros y Hy _. by apply HdRel_cons.
Qed.

Lemma comparable_forall (l : list Value) :
  comparable l <-> forall a b, a ∈ l -> b ∈ l -> same_kind a b.
Proof.
  unfold comparable. rewrite Forall_forall. split.
  - intros H a b Ha Hb. specialize (H a Ha). rewrite Forall_forall in H. by apply H.
  - intros H a Ha. apply Forall_forall. intros b Hb. by apply H.
Qed.

(** Values of one kind are sorted without an exception. *)
Lemma sorted_sorted l :
  comparable l ->
  exists l', sorted l = Ret l' /\ l' ≡ₚ l /\ Sorted value_leq l'.
Proof.
  rewrite comparable_forall.
  induction l as [|x l IH]; intros Hkind.
  - exists []. split; [reflexivity|]. split; [reflexivity | apply Sorted_nil].
  - destruct IH as (l1 & Hrun & Hperm & Hsorted).
    { intros a b Ha Hb. apply Hkind; by right. }
    destruct (insert_sorted_sorted x l1) as (l' & Hrun' & Hperm' & Hsorted' & _).
    { apply Forall_forall. intros y Hy. apply Hkind; [|by left].
      right. by rewrite <- Hperm. }
    { exact Hsorted. }
    exists l'. cbn [sorted]. rewrite Hrun. cbn [obind].
    split; [exact Hrun'|]. split; [by rewrite Hperm', Hperm | exact Hsorted'].
Qed.







(** X1. On values of one kind [add_all_option] returns them in rising
    order, each as often as it was given, followed by "all" as last
    element. *)
Theorem add_all_option_sorted (lst : list Value) :
  comparable lst ->
  exists s,
    add_all_option lst = Ret (s ++ [VStr "all"]) /\
    s ≡ₚ lst /\ Sorted value_leq s /\
    last (s ++ [VStr "all"]) = Some (VStr "all") /\
    length (s ++ [VStr "all"]) = S (length lst).
Proof.
  intros Hcmp. destruct (sorted_sorted lst Hcmp) as (s & Hrun & Hperm & Hs).
  exists s. unfold add_all_option. rewrite Hrun. cbn [obind].
  split; [reflexivity|]. split; [exact Hperm|]. split; [exact Hs|].
  split; [apply last_snoc|]. rewrite length_app, Hperm. cbn [length]. lia.
Qed.

Lemma add_all_option_sorted_witness :
  exists s,
    add_all_option [VStr "technician"; VStr "admin"; VStr "services"]
      = Ret (s ++ [VStr "all"]) /\
    s ≡ₚ [VStr "technician"; VStr "admin"; VStr "services"] /\
    Sorted value_leq s /\
    last (s ++ [VStr "all"]) = Some (VStr "all") /\
    length (s ++ [VStr "all"])
      = S (length [VStr "technician"; VStr "admin"; VStr "services"]).
Proof.
  apply (add_all_option_sorted [VStr "technician"; VStr "admin"; VStr "services"]).
  by_computation.
Defined.


Example add_all_option_mixed :
  add_all_option [VStr "admin"; VInt 7] = Raise TypeError.
Proof. reflexivity. Qed.

(** X3. The options offered for a column whose values are of one kind, as
    [add_all_option] builds them from the distinct values: every value of
    the column and "all", nothing else, "all" last; a value is offered
    twice only if the column itself holds the value "all". *)
Theorem multiselect_options (vs : list Value) :
  comparable vs ->
  exists opts,
    add_all_option (unique vs) = Ret opts /\
    last opts = Some (VStr "all") /\
    (forall v, v ∈ opts <-> v ∈ vs \/ v = VStr "all") /\
    (NoDup opts <-> VStr "all" ∉ vs).
Proof.
  intros Hcmp.
  assert (Hcu : comparable (unique vs)).
  { apply comparable_forall. intros a b Ha Hb.
    apply (proj1 (elem_of_unique vs a)) in Ha.
    apply (proj1 (elem_of_unique vs b)) in Hb.
    by apply (proj1 (comparable_forall vs) Hcmp). }
  destruct (sorted_sorted (unique vs) Hcu) as (s & Hrun & Hperm & _).
  exists (s ++ [VStr "all"]). unfold add_all_option. rewrite Hrun. cbn [obind].
  split; [reflexivity|]. split; [apply last_snoc|]. split.
  - intros v. rewrite elem_of_app, Hperm, elem_of_unique, list_elem_of_singleton. tauto.
  - rewrite NoDup_app. split.
    + intros (_ & Hdisj & _) Hin. apply (Hdisj (VStr "all")).
      * rewrite Hperm. by apply (proj2 (elem_of_unique vs (VStr "all"))).
      * by apply list_elem_of_singleton.
    + intros Hout. split; [rewrite Hperm; apply NoDup_unique|].
      split; [|apply NoDup_singleton].
      intros v Hv Hall. apply list_elem_of_singleton in Hall as ->.
      rewrite Hperm in Hv. apply (proj1 (elem_of_unique vs (VStr "all"))) in Hv.
      contradiction.
Qed.

Lemma multiselect_options_witness :
  exists opts,
    add_all_option (unique (dropna (column_cells scenario "job"))) = Ret opts /\
    last opts = Some (VStr "all") /\
    (forall v, v ∈ opts <-> v ∈ dropna (column_cells scenario "job") \/ v = VStr "all") /\
    (NoDup opts <-> VStr "all" ∉ dropna (column_cells scenario "job")).
Proof.
  apply (multiselect_options (dropna (column_cells scenario "job"))).
  by_computation.
Defined.

(** ** The slider *)



Lemma numeric_forallb (cells : list (option Value)) :
  Forall (fun c => numeric_cell c) cells -> forallb numeric_cell cells = true.
Proof.
  induction 1 as [|c cells Hc _ IH]; [done|]. cbn [forallb]. rewrite IH.
  by destruct (numeric_cell c).
Qed.

Lemma getattr_age D :
  "age" ∈ columns D -> getattr D "age" = Ret (column_cells D "age").
Proof.
  intros Hy. unfold getattr, column_cells, records.
  rewrite bool_decide_eq_true_2 by done. by rewrite <- list_fmap_compose.
Qed.

Lemma slider_default_run (object_max object_min : list (option Value) -> outcome Z)
    (bank : ref) (w : world) :
  slider_default object_max object_min bank w =
  match heap w !! bank with
  | None => (Raise ReferenceError, w)
  | Some d =>
      match getattr d "age" with
      | Raise e => (Raise e, w)
      | Ret s =>
          match int_max object_max s with
          | Raise e => (Raise e, w)
          | Ret max_age =>
              match int_min object_min s with
              | Raise e => (Raise e, w)
              | Ret min_age => (Ret (min_age, max_age), w)
              end
          end
      end
  end.
Proof.
  unfold slider_default, mbind, M_bind, bind, deref, lift, ret.
  destruct (heap w !! bank) as [d|] eqn:Hd; [|reflexivity].
  destruct (getattr d "age") as [s|e] eqn:Hs; [|reflexivity].
  destruct (int_max object_max s) as [mx|e]; [|reflexivity].
  rewrite Hd, Hs. by destruct (int_min object_min s).
Qed.




(** X5. On a frame whose age column holds no age at all, in particular on a
    frame without rows, line 83 raises [ValueError] and the world is
    untouched: the form cannot be built. *)
Theorem slider_default_no_age (object_max object_min : list (option Value) -> outcome Z)
    (w : world) (bank : ref) (D : DataFrame) :
  heap w !! bank = Some D -> "age" ∈ columns D ->
  Forall (fun c => numeric_cell c) (column_cells D "age") ->
  present_ages (column_cells D "age") = [] ->
  slider_default object_max object_min bank w
  = (Raise (ValueError "cannot convert float NaN to integer"), w).
Proof.
  intros HD Hage Hnum Hnone.
  rewrite slider_default_run, HD, (getattr_age D Hage). unfold int_max.
  by rewrite (numeric_forallb _ Hnum), Hnone.
Qed.

Lemma slider_default_no_age_witness :
  slider_default (fun _ => Raise TypeError) (fun _ => Raise TypeError) 0%nat
                 (mkWorld [mkDF bank_columns []] ∅ [])
  = (Raise (ValueError "cannot convert float NaN to integer"),
     mkWorld [mkDF bank_columns []] ∅ []).
Proof.
  apply (slider_default_no_age (fun _ => Raise TypeError) (fun _ => Raise TypeError)
           (mkWorld [mkDF bank_columns []] ∅ []) 0%nat (mkDF bank_columns [])).
  - reflexivity.
  - by_computation.
  - by_computation.
  - reflexivity.
Defined.

(** ** Failures of the filters, and the form left at its defaults *)

(** X7. On a frame, [multiselect_filter] raises exactly when the selection
    lacks "all" and the column is absent; it then raises [KeyError] for that
    column and leaves the world as it was. *)
Theorem multiselect_filter_raises (w : world) (df : ref) (D : DataFrame)
    (col : string) (V : list Value) :
  heap w !! df = Some D ->
  ((exists e w', multiselect_filter df col V w = (Raise e, w'))
     <-> ((VStr "all" ∉ V) /\ (col ∉ columns D))) /\
  (forall e w', multiselect_filter df col V w = (Raise e, w') ->
     e = KeyError col /\ w' = w).
Proof.
  intros HD. unfold multiselect_filter. case_bool_decide as Hall.
  - split; [split|].
    + intros (e & w' & H). discriminate.
    + intros [Hn _]. contradiction.
    + intros e w' H. discriminate.
  - unfold mbind, M_bind, bind, deref, lift, alloc, getitem. rewrite HD.
    case_bool_decide as Hcol.
    + split; [split|].
      * intros (e & w' & H). discriminate.
      * intros [_ Hn]. contradiction.
      * intros e w' H. discriminate.
    + split; [split|].
      * intros _. by split.
      * intros _. by eexists _, _.
      * intros e w' [= <- <-]. by split.
Qed.

Lemma multiselect_filter_raises_witness :
  ((exists e w', multiselect_filter 0%nat "y" [VStr "yes"] no_target_world = (Raise e, w'))
     <-> ((VStr "all" ∉ [VStr "yes"]) /\ ("y" ∉ columns no_target))) /\
  (forall e w', multiselect_filter 0%nat "y" [VStr "yes"] no_target_world = (Raise e, w') ->
     e = KeyError "y" /\ w' = no_target_world).
Proof.
  apply (multiselect_filter_raises no_target_world 0%nat no_target "y" [VStr "yes"]).
  reflexivity.
Defined.

Lemma omapM_age_between_TypeError lo hi (cells : list (option Value)) :
  ~ Forall (fun c => numeric_cell c) cells ->
  omapM (age_between lo hi) cells = Raise TypeError.
Proof.
  induction cells as [|c cells IH]; intros Hn.
  - exfalso. apply Hn. constructor.
  - cbn [omapM]. destruct c as [[a|s]|]; cbn [age_between obind]; [|reflexivity|].
    + rewrite IH; [reflexivity|]. intros H. apply Hn. by constructor.
    + rewrite IH; [reflexivity|]. intros H. apply Hn. by constructor.
Qed.

(** X8. The age query fails in two ways only, and never changes the world
    when it fails: without age column it raises [UndefinedVariableError],
    with a string in the age column it raises [TypeError], whatever the
    bounds. *)
Theorem query_raises (w : world) (bank : ref) (D : DataFrame) (idades : Z * Z) :
  heap w !! bank = Some D ->
  ("age" ∉ columns D ->
     query bank idades w = (Raise (UndefinedVariableError "age"), w)) /\
  ("age" ∈ columns D -> ~ Forall (fun c => numeric_cell c) (column_cells D "age") ->
     query bank idades w = (Raise TypeError, w)) /\
  (forall e w', query bank idades w = (Raise e, w') ->
     w' = w /\
     ((("age" ∉ columns D) /\ e = UndefinedVariableError "age") \/
      ("age" ∈ columns D /\ ~ Forall (fun c => numeric_cell c) (column_cells D "age")
       /\ e = TypeError))).
Proof.
  intros HD. unfold query, mbind, M_bind, bind, deref, lift, alloc, query_age.
  rewrite HD. unfold column_cells, records. rewrite <- list_fmap_compose.
  unfold compose. case_bool_decide as Hage.
  - split; [by intros ?|]. split.
    + intros _ Hn. by rewrite (omapM_age_between_TypeError _ _ _ Hn).
    + intros e w'.
      destruct (decide (Forall (fun c => numeric_cell c)
                  ((fun x : nat * Row => x.2 !! "age") <$> rows D))) as [Hnum|Hn].
      * rewrite (omapM_age_between _ _ _ Hnum). discriminate.
      * rewrite (omapM_age_between_TypeError _ _ _ Hn). intros [= <- <-].
        split; [done|]. right. by split.
  - split; [by intros _|]. split; [by intros ?|].
    intros e w' [= <- <-]. split; [done|]. left. by split.
Qed.

Lemma query_raises_witness :
  ("age" ∉ columns (mkDF ["job"] []) ->
     query 0%nat (30, 50) (mkWorld [mkDF ["job"] []] ∅ [])
     = (Raise (UndefinedVariableError "age"), mkWorld [mkDF ["job"] []] ∅ [])) /\
  ("age" ∈ columns (mkDF ["job"] []) ->
   ~ Forall (fun c => numeric_cell c) (column_cells (mkDF ["job"] []) "age") ->
     query 0%nat (30, 50) (mkWorld [mkDF ["job"] []] ∅ [])
     = (Raise TypeError, mkWorld [mkDF ["job"] []] ∅ [])) /\
  (forall e w', query 0%nat (30, 50) (mkWorld [mkDF ["job"] []] ∅ []) = (Raise e, w') ->
     w' = mkWorld [mkDF ["job"] []] ∅ [] /\
     ((("age" ∉ columns (mkDF ["job"] [])) /\ e = UndefinedVariableError "age") \/
      ("age" ∈ columns (mkDF ["job"] []) /\
       ~ Forall (fun c => numeric_cell c) (column_cells (mkDF ["job"] []) "age")
       /\ e = TypeError))).
Proof.
  apply (query_raises (mkWorld [mkDF ["job"] []] ∅ []) 0%nat (mkDF ["job"] []) (30, 50)).
  reflexivity.
Defined.

Example query_string_age :
  query 0%nat (30, 50)
        (mkWorld [mkDF ["age"] (renumber [ {["age" := VInt 40]}; {["age" := VStr "forty"]} ])] ∅ [])
  = (Raise TypeError,
     mkWorld [mkDF ["age"] (renumber [ {["age" := VInt 40]}; {["age" := VStr "forty"]} ])] ∅ []).
Proof. vm_compute. reflexivity. Qed.

Lemma apply_filters_all fs b w :
  ~ narrows fs -> apply_filters b fs w = (Ret b, w).
Proof.
  unfold narrows. revert b w. induction fs as [|[col V] fs IH]; intros b w Hn; [done|].
  rewrite Exists_cons in Hn. cbn [apply_filters]. unfold mbind, M_bind, bind.
  rewrite multiselect_filter_all.
  - apply IH. tauto.
  - cbn [snd] in Hn. destruct (decide (VStr "all" ∈ V)); [done | tauto].
Qed.

Lemma query_run_frame w bank D idades :
  heap w !! bank = Some D -> "age" ∈ columns D ->
  Forall (fun c => numeric_cell c) (column_cells D "age") ->
  query bank idades w =
    (Ret (length (heap w)),
     mkWorld (heap w ++ [query_frame D idades]) (locals w) (screen w)).
Proof.
  intros HD Hage Hnum. destruct idades as [lo hi].
  rewrite (query_run w bank D lo hi HD Hage Hnum).
  assert (E : filter (fun lr : nat * Row => age_ok lo hi (lr.2 !! "age")) (rows D)
              = filter (fun lr : nat * Row => age_in_range lo hi lr.2) (rows D)).
  { apply list_filter_iff. intros [l r]. apply age_ok_in_range. }
  rewrite E. reflexivity.
Qed.

Lemma chain_all_selected w bank D sel :
  heap w !! bank = Some D -> "age" ∈ columns D ->
  Forall (fun c => numeric_cell c) (column_cells D "age") ->
  ~ narrows (main_filters sel) ->
  filter_chain bank sel w =
    (Ret (length (heap w)),
     mkWorld (heap w ++ [query_frame D (idades sel)]) (locals w) (screen w)).
Proof.
  intros HD Hage Hnum Hall. rewrite filter_chain_apply_filters.
  unfold mbind, M_bind, bind. rewrite (query_run_frame w bank D _ HD Hage Hnum).
  by apply apply_filters_all.
Qed.

(** X9. With "all" in every multiselect the chain of [main] needs nothing
    but a numeric age column: it returns one new frame, the rows of the age
    range with the labels they had, and a categorical column that does not
    exist goes unnoticed. *)
Theorem chain_with_all_selected (w : world) (bank : ref) (D : DataFrame) (sel : Selection) :
  heap w !! bank = Some D -> "age" ∈ columns D ->
  Forall (fun c => numeric_cell c) (column_cells D "age") ->
  ~ narrows (main_filters sel) ->
  exists F,
    filter_chain bank sel w =
      (Ret (length (heap w)), mkWorld (heap w ++ [F]) (locals w) (screen w)) /\
    columns F = columns D /\
    rows F = filter (fun lr : nat * Row =>
                       age_in_range (idades sel).1 (idades sel).2 lr.2) (rows D) /\
    index F `sublist_of` index D.
Proof.
  intros HD Hage Hnum Hall. exists (query_frame D (idades sel)).
  split; [by apply chain_all_selected|]. split; [reflexivity|].
  split; [reflexivity|]. unfold index, query_frame. cbn [rows].
  apply fmap_sublist, sublist_filter.
Qed.

Lemma chain_with_all_selected_witness :
  exists F,
    filter_chain 0%nat (select_all 30 50) no_target_world =
      (Ret (length (heap no_target_world)),
       mkWorld (heap no_target_world ++ [F]) (locals no_target_world) (screen no_target_world)) /\
    columns F = columns no_target /\
    rows F = filter (fun lr : nat * Row =>
                       age_in_range (idades (select_all 30 50)).1
                                    (idades (select_all 30 50)).2 lr.2) (rows no_target) /\
    index F `sublist_of` index no_target.
Proof.
  apply (chain_with_all_selected no_target_world 0%nat no_target (select_all 30 50)).
  - reflexivity.
  - by_computation.
  - by_computation.
  - by_computation.
Defined.





(** ** What the chain keeps *)

Lemma StronglySorted_seq (s n : nat) : StronglySorted lt (seq s n).
Proof.
  revert s. induction n as [|n IH]; intros s; [constructor|].
  cbn [seq]. constructor; [apply IH|].
  apply Forall_forall. intros x Hx. apply elem_of_seq in Hx. lia.
Qed.

Lemma StronglySorted_sublist (l1 l2 : list nat) :
  l1 `sublist_of` l2 -> StronglySorted lt l2 -> StronglySorted lt l1.
Proof.
  induction 1 as [|x l1 l2 Hsub IH|x l1 l2 Hsub IH]; intros Hs.
  - constructor.
  - apply StronglySorted_inv in Hs as [Hs Hall]. constructor; [by apply IH|].
    apply Forall_forall. intros y Hy. rewrite Forall_forall in Hall.
    apply Hall. by apply (elem_of_sublist l1 l2).
  - apply StronglySorted_inv in Hs as [Hs _]. by apply IH.
Qed.

Lemma rising_reset_index D : rising (reset_index D).
Proof.
  unfold rising. rewrite index_reset_index. apply StronglySorted_seq.
Qed.

Lemma query_keeps_rising bank idades w b' w' D :
  heap w !! bank = Some D -> query bank idades w = (Ret b', w') ->
  exists Q, heap w' !! b' = Some Q /\ columns Q = columns D /\
            rows Q `sublist_of` rows D.
Proof.
  intros HD. unfold query, mbind, M_bind, bind, deref, lift, alloc, query_age.
  rewrite HD. case_bool_decide; [|discriminate].
  destruct (omapM _ _) as [mask|e]; [|discriminate]. cbn [obind].
  intros [= <- <-]. eexists. cbn [heap]. split; [apply lookup_alloc|].
  split; [reflexivity|]. unfold boolean_index. cbn [rows]. apply select_sublist.
Qed.

Lemma multiselect_filter_keeps_rising df col V w b' w' D :
  heap w !! df = Some D -> rising D ->
  multiselect_filter df col V w = (Ret b', w') ->
  exists F, heap w' !! b' = Some F /\ columns F = columns D /\ rising F /\
            records F `sublist_of` records D.
Proof.
  intros HD Hr. unfold multiselect_filter. case_bool_decide.
  - unfold ret. intros [= <- <-]. by exists D.
  - unfold mbind, M_bind, bind, deref, lift, alloc. rewrite HD.
    destruct (getitem D col) as [s|e]; [|discriminate].
    intros [= <- <-]. eexists. cbn [heap]. split; [apply lookup_alloc|].
    split; [reflexivity|]. split; [apply rising_reset_index|].
    rewrite records_reset_index. unfold records, boolean_index. cbn [rows].
    apply fmap_sublist, select_sublist.
Qed.

Lemma apply_filters_keeps_rising fs b w b' w' D :
  heap w !! b = Some D -> rising D -> apply_filters b fs w = (Ret b', w') ->
  exists F, heap w' !! b' = Some F /\ columns F = columns D /\ rising F /\
            records F `sublist_of` records D.
Proof.
  revert b w D. induction fs as [|[col V] fs IH]; intros b w D HD Hr.
  - unfold apply_filters, ret. intros [= <- <-]. by exists D.
  - cbn [apply_filters]. intros (b1 & w1 & H1 & H2)%bind_Ret_inv.
    destruct (multiselect_filter_keeps_rising _ _ _ _ _ _ _ HD Hr H1)
      as (F1 & HF1 & Hc1 & Hr1 & Hs1).
    destruct (IH _ _ _ HF1 Hr1 H2) as (F & HF & Hc & HrF & Hs).
    exists F. split; [exact HF|]. split; [congruence|]. split; [exact HrF | by etrans].
Qed.

(** X10. Whatever the frame and the selection, when the chain of [main]
    returns, its result has the columns of the input, its records are a part
    of the input's records in their order, and index labels that rise
    strictly in the input rise strictly in the result: rows are never
    added, reordered or relabelled out of order. *)
Theorem filter_chain_keeps (w : world) (bank : ref) (D : DataFrame) (sel : Selection)
    (b' : ref) (w' : world) :
  heap w !! bank = Some D -> rising D ->
  filter_chain bank sel w = (Ret b', w') ->
  exists F,
    heap w' !! b' = Some F /\ columns F = columns D /\ rising F /\
    records F `sublist_of` records D.
Proof.
  intros HD Hr. rewrite filter_chain_apply_filters.
  intros (b0 & w0 & H0 & H1)%bind_Ret_inv.
  destruct (query_keeps_rising _ _ _ _ _ _ HD H0) as (Q & HQ & Hc0 & Hs0).
  assert (HrQ : rising Q).
  { unfold rising, index in *. eapply StronglySorted_sublist; [|exact Hr].
    by apply fmap_sublist. }
  destruct (apply_filters_keeps_rising _ _ _ _ _ _ HQ HrQ H1) as (F & HF & Hc & HrF & Hs).
  exists F. split; [exact HF|]. split; [congruence|]. split; [exact HrF|].
  etrans; [exact Hs|]. unfold records. by apply fmap_sublist.
Qed.

Lemma filter_chain_keeps_witness :
  exists F,
    heap (filter_chain 0%nat admins_30_50 scenario_world).2
      !! (length (heap scenario_world) + 1)%nat = Some F /\
    columns F = columns scenario /\ rising F /\
    records F `sublist_of` records scenario.
Proof.
  apply (filter_chain_keeps scenario_world 0%nat scenario admins_30_50).
  - reflexivity.
  - unfold rising, scenario, index. cbn [rows]. rewrite fst_zip by (cbn; lia).
    apply StronglySorted_seq.
  - vm_compute. reflexivity.
Defined.

(** The records of the chain's result on a Dataset. *)
Lemma filter_chain_records w bank D sel :
  heap w !! bank = Some D -> Dataset D ->
  exists b' w' F,
    filter_chain bank sel w = (Ret b', w') /\
    heap w' !! b' = Some F /\
    columns F = columns D /\
    records F = filter (survives sel) (records D) /\
    heap w `prefix_of` heap w' /\ locals w' = locals w /\ screen w' = screen w.
Proof.
  intros Hb (Hage & Hnum & Hcat & _ & _).
  destruct (chain_run (main_filters sel) w bank D (idades sel) Hb Hage Hnum)
    as (b' & w' & Hrun & Hb' & Hpre & Hloc & Hscr).
  { by apply main_filters_columns. }
  exists b', w', (foldl step_frame (query_frame D (idades sel)) (main_filters sel)).
  rewrite filter_chain_apply_filters. split; [exact Hrun|]. split; [exact Hb'|].
  split; [by rewrite steps_columns|]. split; [|done].
  rewrite steps_records, query_frame_records, list_filter_filter.
  apply list_filter_iff. intros r. unfold survives. tauto.
Qed.

Lemma filter_sublist_mono {A} (P Q : A -> Prop) `{!forall x, Decision (P x)}
    `{!forall x, Decision (Q x)} (l : list A) :
  (forall x, P x -> Q x) -> filter P l `sublist_of` filter Q l.
Proof.
  intros Himp. induction l as [|x l IH]; [done|].
  rewrite !filter_cons.
  destruct (decide (P x)) as [HP|HP], (decide (Q x)) as [HQ|HQ].
  - by apply sublist_skip.
  - exfalso. by apply HQ, Himp.
  - by apply sublist_cons.
  - exact IH.
Qed.

Lemma wider_survives sel sel' r :
  wider sel sel' -> survives sel r -> survives sel' r.
Proof.
  intros (Hlo & Hhi & Hsel) [(a & Ha & Hin) Hpass]. split.
  - exists a. split; [exact Ha | lia].
  - revert Hpass. induction Hsel as [|f f' fs fs' [Hcol Hsub] _ IH]; intros Hpass.
    + constructor.
    + apply Forall_cons in Hpass as [Hf Hpass]. constructor; [|by apply IH].
      unfold passes in *. destruct Hsub as [Hall'|Hsub]; [by left|].
      destruct Hf as [Hall|(v & Hv & Hin')].
      * left. by apply Hsub.
      * right. exists v. rewrite <- Hcol. split; [exact Hv | by apply Hsub].
Qed.

(** X11. Widening the age range or adding values to a multiselect never
    loses a row: on a Dataset the records the chain returns for a selection
    are, in order, among the records it returns for a wider one. *)
Theorem wider_selection_keeps_rows (w : world) (bank : ref) (D : DataFrame)
    (sel sel' : Selection) :
  heap w !! bank = Some D -> Dataset D -> wider sel sel' ->
  exists b1 w1 F b2 w2 F',
    filter_chain bank sel w = (Ret b1, w1) /\ heap w1 !! b1 = Some F /\
    filter_chain bank sel' w = (Ret b2, w2) /\ heap w2 !! b2 = Some F' /\
    records F `sublist_of` records F'.
Proof.
  intros HD Hds Hw.
  destruct (filter_chain_records w bank D sel HD Hds) as (b1 & w1 & F & H1 & HF & _ & Hr & _).
  destruct (filter_chain_records w bank D sel' HD Hds) as (b2 & w2 & F' & H2 & HF' & _ & Hr' & _).
  exists b1, w1, F, b2, w2, F'. split; [exact H1|]. split; [exact HF|].
  split; [exact H2|]. split; [exact HF'|].
  rewrite Hr, Hr'. apply filter_sublist_mono. intros r. by apply wider_survives.
Qed.

Lemma wider_selection_keeps_rows_witness :
  exists b1 w1 F b2 w2 F',
    filter_chain 0%nat admins_30_50 scenario_world = (Ret b1, w1) /\
    heap w1 !! b1 = Some F /\
    filter_chain 0%nat (select_all 25 65) scenario_world = (Ret b2, w2) /\
    heap w2 !! b2 = Some F' /\
    records F `sublist_of` records F'.
Proof.
  apply (wider_selection_keeps_rows scenario_world 0%nat scenario admins_30_50
           (select_all 25 65)).
  - reflexivity.
  - by_computation.
  - unfold wider, admins_30_50, select_all, main_filters. cbn.
    split; [lia|]. split; [lia|].
    repeat (constructor; [split; [reflexivity | left; by_computation]|]). constructor.
Defined.

(** ** Runs of [main] *)

Lemma bind_Ret_run {A B} (m : M A) (k : A -> M B) w a w1 :
  m w = (Ret a, w1) -> (m ≫= k) w = k a w1.
Proof. intros H. unfold mbind, M_bind, bind. by rewrite H. Qed.

Lemma bind_Raise_run {A B} (m : M A) (k : A -> M B) w e w1 :
  m w = (Raise e, w1) -> (m ≫= k) w = (Raise e, w1).
Proof. intros H. unfold mbind, M_bind, bind. by rewrite H. Qed.


Lemma proportion_table_empty D :
  "y" ∈ columns D -> target_labels D = [] ->
  proportion_table D = Ret (mkTable "y" []).
Proof.
  intros Hy Hnone. unfold proportion_table. rewrite (getattr_target D Hy).
  cbn [obind]. unfold value_counts. fold (target_labels D). by rewrite Hnone.
Qed.

(** X12. The raw table of lines 136 to 138, which no handler guards: a
    frame without target column raises [AttributeError] and changes
    nothing; target labels that mix strings and integers raise [TypeError];
    a target column without any value, as in a frame without rows, gives
    the empty table without an error. *)
Theorem raw_proportions_outcomes (w : world) (bank_raw : ref) (D : DataFrame) :
  heap w !! bank_raw = Some D ->
  ("y" ∉ columns D ->
     raw_proportions bank_raw w = (Raise (AttributeError "y"), w)) /\
  ("y" ∈ columns D -> ~ comparable (target_labels D) ->
     (raw_proportions bank_raw w).1 = Raise TypeError) /\
  ("y" ∈ columns D -> target_labels D = [] ->
     raw_proportions bank_raw w
     = (Ret tt, mkWorld (heap w) (<["bank_raw_target_perc" := mkTable "y" []]> (locals w))
                        (screen w))).
Proof.
  intros HD. split; [|split].
  - intros Hy. rewrite raw_proportions_into, proportions_into_run, HD.
    unfold getattr. by rewrite bool_decide_eq_false_2.
  - intros Hy Hn. rewrite raw_proportions_into, proportions_into_run, HD.
    destruct (proportion_table D) as [t|e] eqn:Ht.
    + exfalso. apply Hn. by apply (proportion_table_inv D t).
    + unfold proportion_table in Ht. rewrite (getattr_target D Hy) in *.
      cbn [obind] in Ht. cbv zeta. unfold sort_index in *.
      destruct (sort_entries _) as [es|e0] eqn:Hs; [discriminate|].
      cbn [obind fst]. f_equal. by apply (sort_entries_TypeError _ _ Hs).
  - intros Hy Hnone. rewrite raw_proportions_into.
    by apply (proportions_into_ok _ _ _ D), proportion_table_empty.
Qed.

Lemma raw_proportions_outcomes_witness :
  ("y" ∉ columns no_target ->
     raw_proportions 0%nat no_target_world = (Raise (AttributeError "y"), no_target_world)) /\
  ("y" ∈ columns no_target -> ~ comparable (target_labels no_target) ->
     (raw_proportions 0%nat no_target_world).1 = Raise TypeError) /\
  ("y" ∈ columns no_target -> target_labels no_target = [] ->
     raw_proportions 0%nat no_target_world
     = (Ret tt, mkWorld (heap no_target_world)
                        (<["bank_raw_target_perc" := mkTable "y" []]> (locals no_target_world))
                        (screen no_target_world))).
Proof.
  apply (raw_proportions_outcomes no_target_world 0%nat no_target). reflexivity.
Defined.

Example raw_proportions_no_rows :
  raw_proportions 0%nat (mkWorld [mkDF bank_columns []] ∅ [])
  = (Ret tt, mkWorld [mkDF bank_columns []] {["bank_raw_target_perc" := mkTable "y" []]} []).
Proof. vm_compute. reflexivity. Qed.




(** ** The [try] block inside [main] *)

Lemma proportions_into_Ret_inv x df w w' D :
  heap w !! df = Some D -> proportions_into x df w = (Ret tt, w') ->
  exists t, proportion_table D = Ret t /\
            w' = mkWorld (heap w) (<[x := t]> (locals w)) (screen w).
Proof.
  intros HD. rewrite proportions_into_run, HD. unfold proportion_table.
  destruct (getattr D "y") as [s|e]; [|discriminate]. cbv zeta. cbn [obind].
  destruct (sort_index _) as [t2|e]; [|discriminate]. cbn [obind].
  intros [= <-]. by eexists.
Qed.

Lemma run_outcome {A} (p : outcome A * world) (a : A) :
  p.1 = Ret a -> p = (Ret a, p.2).
Proof. destruct p as [o w]. cbn. by intros ->. Qed.

(** C7 (amended). In a run of [main] computing the filtered proportion
    table does not fail.  In every state that reaches line 140, that is,
    after the upload was loaded, the copy was filtered and the raw table of
    lines 136 to 138 was computed, the statements of the [try] block
    succeed: they bind [bank_target_perc] to the table of the filtered frame,
    which is the empty table when the filters left no row, and write nothing
    to the page.  The handler and its message are not reached and no earlier
    table is kept. *)
Theorem try_block_never_fails (file : Type)
    (read_csv read_excel : file -> outcome DataFrame)
    (data_file_1 : file) (sel : Selection) (w w1 wb wc : world) (bank_raw bank : ref) :
  load_data file read_csv read_excel data_file_1 w = (Ret bank_raw, w1) ->
  (b ← copy bank_raw; filter_chain b sel) w1 = (Ret bank, wb) ->
  raw_proportions bank_raw wb = (Ret tt, wc) ->
  exists F tF,
    heap wc !! bank = Some F /\
    proportion_table F = Ret tF /\
    filtered_proportions bank wc
      = (Ret tt, mkWorld (heap wc) (<["bank_target_perc" := tF]> (locals wc)) (screen wc)) /\
    try_filtered_proportions bank wc
      = (Ret tt, mkWorld (heap wc) (<["bank_target_perc" := tF]> (locals wc)) (screen wc)) /\
    (rows F = [] -> tF = mkTable "y" []).
Proof.
  intros Hload Hfilter Hraw.
  destruct (load_data_inv _ _ _ _ _ _ _ Hload) as (D & _ & HD).
  apply bind_Ret_inv in Hfilter as (b & wa & Hcopy & Hchain).
  rewrite copy_run, HD in Hcopy. injection Hcopy as <- <-.
  destruct (filter_chain_inv (length (heap w1)) sel
              (mkWorld (heap w1 ++ [D]) (locals w1) (screen w1)) bank wb D
              (lookup_alloc _ _) Hchain) as (F & HF & Hc & Hr).
  assert (HDb : heap wb !! bank_raw = Some D).
  { pose proof (ao_filter_chain (length (heap w1)) sel
                  (mkWorld (heap w1 ++ [D]) (locals w1) (screen w1))) as Hpre.
    rewrite Hchain in Hpre. cbn [snd heap] in Hpre.
    eapply prefix_lookup_Some; [exact HD|]. etrans; [|exact Hpre]. by apply prefix_app_r. }
  rewrite raw_proportions_into in Hraw.
  destruct (proportions_into_Ret_inv _ _ _ _ D HDb Hraw) as (tD & HtD & ->).
  apply proportion_table_inv in HtD as [Hy Hcmp].
  destruct (proportion_table_spec F) as (tF & HtF & _).
  { by rewrite Hc. }
  { eapply comparable_subseteq; [|exact Hcmp].
    by apply target_labels_subseteq, sublist_subseteq. }
  exists F, tF. cbn [heap locals screen].
  split; [exact HF|]. split; [exact HtF|].
  assert (Hrun : filtered_proportions bank
                   (mkWorld (heap wb) (<["bank_raw_target_perc" := tD]> (locals wb)) (screen wb))
                 = (Ret tt, mkWorld (heap wb)
                              (<["bank_target_perc" := tF]>
                                 (<["bank_raw_target_perc" := tD]> (locals wb)))
                              (screen wb))).
  { rewrite filtered_proportions_into.
    pose proof (proportions_into_ok "bank_target_perc" bank
                  (mkWorld (heap wb) (<["bank_raw_target_perc" := tD]> (locals wb)) (screen wb))
                  F tF HF HtF) as Hok.
    cbn [heap locals screen] in Hok. exact Hok. }
  split; [exact Hrun|]. split.
  - unfold try_filtered_proportions, try_except. by rewrite Hrun.
  - intros Hrows.
    pose proof (proportion_table_empty F) as Hempty.
    rewrite HtF in Hempty. symmetry.
    assert (Ret tF = Ret (mkTable "y" [])) as [= ->]; [|reflexivity].
    apply Hempty; [by rewrite Hc | by apply target_labels_nil].
Qed.

Lemma try_block_never_fails_witness :
  exists F tF,
    heap (raw_proportions 0%nat
            ((b ← copy 0%nat; filter_chain b empty_jobs) scenario_world).2).2
      !! 3%nat = Some F /\
    proportion_table F = Ret tF /\
    filtered_proportions 3%nat
      (raw_proportions 0%nat
         ((b ← copy 0%nat; filter_chain b empty_jobs) scenario_world).2).2
      = (Ret tt,
         mkWorld
           (heap (raw_proportions 0%nat
                    ((b ← copy 0%nat; filter_chain b empty_jobs) scenario_world).2).2)
           (<["bank_target_perc" := tF]>
              (locals (raw_proportions 0%nat
                         ((b ← copy 0%nat; filter_chain b empty_jobs) scenario_world).2).2))
           (screen (raw_proportions 0%nat
                      ((b ← copy 0%nat; filter_chain b empty_jobs) scenario_world).2).2)) /\
    try_filtered_proportions 3%nat
      (raw_proportions 0%nat
         ((b ← copy 0%nat; filter_chain b empty_jobs) scenario_world).2).2
      = (Ret tt,
         mkWorld
           (heap (raw_proportions 0%nat
                    ((b ← copy 0%nat; filter_chain b empty_jobs) scenario_world).2).2)
           (<["bank_target_perc" := tF]>
              (locals (raw_proportions 0%nat
                         ((b ← copy 0%nat; filter_chain b empty_jobs) scenario_world).2).2))
           (screen (raw_proportions 0%nat
                      ((b ← copy 0%nat; filter_chain b empty_jobs) scenario_world).2).2)) /\
    (rows F = [] -> tF = mkTable "y" []).
Proof.
  apply (try_block_never_fails unit (csv_of scenario) not_a_workbook tt empty_jobs
           (mkWorld [] ∅ []) scenario_world
           ((b ← copy 0%nat; filter_chain b empty_jobs) scenario_world).2
           (raw_proportions 0%nat
              ((b ← copy 0%nat; filter_chain b empty_jobs) scenario_world).2).2
           0%nat 3%nat).
  - reflexivity.
  - apply run_outcome. vm_compute. reflexivity.
  - apply run_outcome. vm_compute. reflexivity.
Defined.

(** C7, as stated, fails on a real run.  With no job selected the filters
    eliminate every row of the scenario, which the claim names as a failure
    of the computation.  Yet [main] runs to its end: the filtered frame has
    no rows, nothing but the two tables is written, so the message is not
    reported, and [bank_target_perc], unbound when [main] started, holds the
    fresh empty table instead of being left as it was. *)
Lemma empty_filter_counterexample :
  (main unit (csv_of scenario) not_a_workbook tt empty_jobs (mkWorld [] ∅ [])).1 = Ret tt /\
  rows <$> heap (main unit (csv_of scenario) not_a_workbook tt empty_jobs
                      (mkWorld [] ∅ [])).2 !! 3%nat = Some [] /\
  screen (main unit (csv_of scenario) not_a_workbook tt empty_jobs (mkWorld [] ∅ [])).2
    = [ EvTable "### Proporção original"
          (mkTable "y" [(VStr "no", (700 # 10)%Q); (VStr "yes", (300 # 10)%Q)]);
        EvTable "### Proporção da tabela com filtros" (mkTable "y" []) ] /\
  locals (mkWorld [] ∅ []) !! "bank_target_perc" = None /\
  locals (main unit (csv_of scenario) not_a_workbook tt empty_jobs (mkWorld [] ∅ [])).2
    !! "bank_target_perc" = Some (mkTable "y" []).
Proof.
  split; [vm_compute; reflexivity|]. split; [vm_compute; reflexivity|].
  split; [vm_compute; reflexivity|]. split; [reflexivity|]. vm_compute. reflexivity.
Qed.

(** ** What [main] never reports *)

Lemma silent_ret {A} (a : A) : silent (ret a).
Proof. intros w. done. Qed.

Lemma silent_lift {A} (o : outcome A) : silent (lift o).
Proof. intros w. done. Qed.

Lemma silent_deref r : silent (deref r).
Proof. intros w. unfold deref. by destruct (heap w !! r). Qed.

Lemma silent_alloc d : silent (alloc d).
Proof. intros w. done. Qed.

Lemma silent_assign x t : silent (assign x t).
Proof. intros w. done. Qed.

Lemma silent_load x : silent (load x).
Proof. intros w. unfold load. by destruct (locals w !! x). Qed.

Lemma silent_bind {A B} (m : M A) (k : A -> M B) :
  silent m -> (forall a, silent (k a)) -> silent (m ≫= k).
Proof.
  intros Hm Hk w. unfold mbind, M_bind, bind. specialize (Hm w).
  destruct (m w) as [[a|e] w1]; [|exact Hm].
  cbn [snd] in Hm. rewrite <- Hm. apply Hk.
Qed.

Lemma silent_try_except {A} (body : M A) (handler : exn -> M A) :
  silent body -> (forall e, silent (handler e)) -> silent (try_except body handler).
Proof.
  intros Hb Hh w. unfold try_except. specialize (Hb w).
  destruct (body w) as [[a|e] w1]; [exact Hb|].
  cbn [snd] in Hb. rewrite <- Hb. apply Hh.
Qed.

Create HintDb silence.
#[local] Hint Resolve silent_ret silent_lift silent_deref silent_alloc
  silent_assign silent_load : silence.

Ltac silence :=
  repeat first
    [ apply silent_bind; [|intros ?]
    | apply silent_try_except; [|intros ?]
    | solve [auto with silence] ].

Lemma silent_multiselect_filter df col selecionados :
  silent (multiselect_filter df col selecionados).
Proof. unfold multiselect_filter. case_bool_decide; silence. Qed.

Lemma silent_query bank idades : silent (query bank idades).
Proof. unfold query. silence. Qed.

#[local] Hint Resolve silent_multiselect_filter silent_query : silence.

Lemma silent_filter_chain bank sel : silent (filter_chain bank sel).
Proof. unfold filter_chain. silence. Qed.

Lemma silent_copy df : silent (copy df).
Proof. unfold copy. silence. Qed.

Lemma silent_proportions_into x df : silent (proportions_into x df).
Proof. unfold proportions_into, target_perc. silence. Qed.

Lemma silent_load_data (file : Type) (read_csv read_excel : file -> outcome DataFrame)
    (file_data : file) :
  silent (load_data file read_csv read_excel file_data).
Proof. unfold load_data. silence. Qed.

(** What [show_tables] adds to the page are tables. *)
Lemma show_tables_screen w :
  exists evs,
    screen (show_tables w).2 = screen w ++ evs /\
    Forall (fun ev => exists title t, ev = EvTable title t) evs.
Proof.
  unfold show_tables, mbind, M_bind, bind, load, st_write_table.
  destruct (locals w !! "bank_raw_target_perc") as [t1|].
  - cbn [locals]. destruct (locals w !! "bank_target_perc") as [t2|].
    + eexists [_; _]. cbn [snd screen]. split; [by rewrite <- app_assoc|].
      repeat constructor; by eexists _, _.
    + eexists [_]. cbn [snd screen]. split; [reflexivity|].
      repeat constructor; by eexists _, _.
  - exists []. cbn [snd]. split; [by rewrite app_nil_r | constructor].
Qed.

(** X14. Whatever the upload, the parsers and the selection, and however
    [main] ends, all it adds to the page are tables: no run reports "Erro no
    filtro dos dados.".  The handler of lines 144 to 145 is dead code,
    because the [try] block works on a part of the raw frame whose table has
    just been computed. *)
Theorem main_never_reports (file : Type)
    (read_csv read_excel : file -> outcome DataFrame)
    (data_file_1 : file) (sel : Selection) (w : world) :
  exists evs,
    screen (main file read_csv read_excel data_file_1 sel w).2 = screen w ++ evs /\
    Forall (fun ev => exists title t, ev = EvTable title t) evs.
Proof.
  unfold main.
  pose proof (silent_load_data file read_csv read_excel data_file_1 w) as Hs0.
  destruct (load_data file read_csv read_excel data_file_1 w) as [[bank_raw|e] w1] eqn:Hload.
  2:{ rewrite (bind_Raise_run _ _ _ _ _ Hload). cbn [snd] in *. exists [].
      split; [by rewrite app_nil_r | constructor]. }
  rewrite (bind_Ret_run _ _ _ _ _ Hload). cbn [snd] in Hs0. rewrite <- Hs0.
  destruct (load_data_inv _ _ _ _ _ _ _ Hload) as (D & _ & HD).
  pose proof (silent_copy bank_raw w1) as Hs1.
  destruct (copy bank_raw w1) as [[b|e] wa] eqn:Hcopy.
  2:{ rewrite (bind_Raise_run _ _ _ _ _ Hcopy). cbn [snd] in *. exists [].
      split; [by rewrite app_nil_r | constructor]. }
  rewrite (bind_Ret_run _ _ _ _ _ Hcopy). cbn [snd] in Hs1. rewrite <- Hs1.
  pose proof (silent_filter_chain b sel wa) as Hs2.
  destruct (filter_chain b sel wa) as [[b'|e] wb] eqn:Hchain.
  2:{ rewrite (bind_Raise_run _ _ _ _ _ Hchain). cbn [snd] in *. exists [].
      split; [by rewrite app_nil_r | constructor]. }
  rewrite (bind_Ret_run _ _ _ _ _ Hchain). cbn [snd] in Hs2. rewrite <- Hs2.
  pose proof (silent_proportions_into "bank_raw_target_perc" bank_raw wb) as Hs3.
  rewrite <- raw_proportions_into in Hs3.
  destruct (raw_proportions bank_raw wb) as [[[]|e] wc] eqn:Hraw.
  2:{ rewrite (bind_Raise_run _ _ _ _ _ Hraw). cbn [snd] in *. exists [].
      split; [by rewrite app_nil_r | constructor]. }
  rewrite (bind_Ret_run _ _ _ _ _ Hraw).
  destruct (handler_unreachable bank_raw b' sel w1 wb wc D HD) as (wd & Hfilt & Hscr).
  { by rewrite (bind_Ret_run _ _ _ _ _ Hcopy). }
  { exact Hraw. }
  assert (Htry : try_filtered_proportions b' wc = (Ret tt, wd)).
  { unfold try_filtered_proportions, try_except. by rewrite Hfilt. }
  rewrite (bind_Ret_run _ _ _ _ _ Htry).
  destruct (show_tables_screen wd) as (evs & Hshow & Htables).
  exists evs. by rewrite Hshow, Hscr.
Qed.



